(** * google-calendar-mcp: a shallow embedding of the server and its handlers

    The development follows the TypeScript sources: the per-token client
    cache ([src/auth/clientManager.ts], [src/auth/client.ts]), the shared
    error handler ([src/handlers/core/BaseToolHandler.ts]), the single-call
    handlers (delete event, list colors, list calendars), the call-tool
    boundary of the server entry point, and the batch list-events logic that
    [src/handlers/core/BatchListEvents.test.ts] carries inline (response
    processing, start-time sort, request paths, multipart body).

    Part I holds the model, Part II the theorems. *)

From Stdlib Require Import String Ascii List ZArith Lia Sorted Permutation.
From stdpp Require Import base option list gmap strings pretty.

Open Scope string_scope.
Open Scope list_scope.

(* ===================================================================== *)
(** * Part I: the model                                                   *)
(* ===================================================================== *)

(** ** JavaScript values, completions and the string helpers the code uses *)

Module Js.

(** The primitive values that reach the handlers as tool arguments or as
    thrown non-Error values. Numbers are the integers. *)
Inductive value :=
| VUndefined
| VNull
| VBool (b : bool)
| VNumber (n : Z)
| VString (s : string).

(** [String(v)] on a primitive. *)
Definition toString (v : value) : string :=
  match v with
  | VUndefined => "undefined"
  | VNull => "null"
  | VBool true => "true"
  | VBool false => "false"
  | VNumber n => pretty n
  | VString s => s
  end.

(** A plain object with primitive-valued properties; reading a property that
    is not there gives [undefined]. *)
Definition prop (o : gmap string value) (k : string) : value :=
  default VUndefined (o !! k).

(** What [error.response?.data?.error] can hold. *)
Inductive dataError :=
| NoDataError
| DataErrorString (s : string)
| DataErrorObject (code : Z) (message : string).

(** Thrown values: [Error] objects (the plain ones, gaxios' [GaxiosError],
    zod's [ZodError]), primitives, and other objects, of which only the
    string that [String(e)] gives matters here. *)
Inductive thrown :=
| ErrorObj (message : string)
| GaxiosErrorObj (message : string) (response_data_error : dataError)
| ZodErrorObj (message : string)
| Primitive (v : value)
| OtherObject (asString : string).

(** [e instanceof GaxiosError] *)
Definition instanceofGaxiosError (e : thrown) : bool :=
  match e with
  | GaxiosErrorObj _ _ => true
  | _ => false
  end.

(** [e instanceof Error ? e.message : String(e)] *)
Definition messageOf (e : thrown) : string :=
  match e with
  | ErrorObj m | GaxiosErrorObj m _ | ZodErrorObj m => m
  | Primitive v => toString v
  | OtherObject str => str
  end.

(** The result of evaluating a call: a value, or a throw (for an async
    function: a promise that resolves, or one that rejects). *)
Inductive completion (A : Type) :=
| Normal (a : A)
| Throw (e : thrown).
Arguments Normal {A} a.
Arguments Throw {A} e.

(** Truthiness of an optional string, as [||] and [!] test it: [undefined]
    and the empty string are falsy. *)
Definition truthy (o : option string) : bool :=
  match o with
  | Some s => negb (String.eqb s "")
  | None => false
  end.

(** [Array.prototype.join] *)
Fixpoint join (sep : string) (l : list string) : string :=
  match l with
  | [] => ""
  | x :: rest =>
    match rest with
    | [] => x
    | _ :: _ => x +:+ sep +:+ join sep rest
    end
  end.

(** [String.prototype.split] on a one-character separator. *)
Fixpoint split (sep : ascii) (s : string) : list string :=
  match s with
  | "" => [""]
  | String c r =>
    if Ascii.eqb c sep then "" :: split sep r
    else match split sep r with
         | h :: t => String c h :: t
         | [] => [String c ""]
         end
  end.

(** [String.prototype.includes] *)
Fixpoint includes (needle s : string) : bool :=
  String.prefix needle s ||
  match s with
  | "" => false
  | String _ r => includes needle r
  end.

(** Upper-case hexadecimal digit and the [%XX] escape of one byte. *)
Definition hexDigit (n : N) : ascii :=
  ascii_of_N (if (n <? 10)%N then 48 + n else 55 + n).

Definition percent (c : ascii) : string :=
  let n := N_of_ascii c in
  String "%" (String (hexDigit (n / 16)) (String (hexDigit (n mod 16)) "")).

Definition isAlnum (c : ascii) : bool :=
  let n := N_of_ascii c in
  ((48 <=? n) && (n <=? 57) || (65 <=? n) && (n <=? 90) || (97 <=? n) && (n <=? 122))%N.

Definition memChar (c : ascii) (s : string) : bool :=
  existsb (Ascii.eqb c) (list_ascii_of_string s).

(** [encodeURIComponent], on the UTF-8 bytes of the string: letters, digits
    and [- _ . ! ~ * ' ( )] stay, every other byte becomes [%XX]. *)
Definition encodeURIComponentChar (c : ascii) : string :=
  if isAlnum c || memChar c "-_.!~*'()" then String c "" else percent c.

Fixpoint encodeURIComponent (s : string) : string :=
  match s with
  | "" => ""
  | String c r => encodeURIComponentChar c +:+ encodeURIComponent r
  end.

(** The [application/x-www-form-urlencoded] byte serializer behind
    [URLSearchParams.prototype.toString]: letters, digits and [* - . _]
    stay, a space becomes [+], every other byte becomes [%XX]. *)
Definition formEncodeChar (c : ascii) : string :=
  if isAlnum c || memChar c "*-._" then String c ""
  else if Ascii.eqb c " " then "+" else percent c.

Fixpoint formEncode (s : string) : string :=
  match s with
  | "" => ""
  | String c r => formEncodeChar c +:+ formEncode r
  end.

(** [new URLSearchParams(entries).toString()] *)
Definition URLSearchParams_toString (entries : list (string * string)) : string :=
  join "&" (map (λ kv, formEncode kv.1 +:+ "=" +:+ formEncode kv.2) entries).

End Js.

Import Js.

(** ** [src/auth/client.ts] and [src/auth/clientManager.ts] *)

Module Auth.

(** [process.env], the three variables the client factory reads. *)
Record Env := {
  GOOGLE_CLIENT_ID : option string;
  GOOGLE_CLIENT_SECRET : option string;
  GOOGLE_REDIRECT_URIS : option string;
}.

(** An [OAuth2Client], as far as this code touches it: the constructor
    options and the access token that [setCredentials] stores. *)
Record OAuth2Client := {
  clientId : string;
  clientSecret : string;
  redirectUri : string;
  credentials : option string;
}.

Definition dummyRedirectUri : string := "http://localhost:3000/auth/callback".

(** [initializeOAuth2Client()] *)
Definition initializeOAuth2Client (env : Env) : completion OAuth2Client :=
  let redirectUris :=
    match GOOGLE_REDIRECT_URIS env with
    | Some s => split "," s
    | None => []
    end in
  if negb (truthy (GOOGLE_CLIENT_ID env)) then
    Throw (ErrorObj "GOOGLE_CLIENT_ID environment variable is required")
  else if negb (truthy (GOOGLE_CLIENT_SECRET env)) then
    Throw (ErrorObj "GOOGLE_CLIENT_SECRET environment variable is required")
  else
    Normal {| clientId := default "" (GOOGLE_CLIENT_ID env);
              clientSecret := default "" (GOOGLE_CLIENT_SECRET env);
              redirectUri := default dummyRedirectUri (head redirectUris);
              credentials := None |}.

(** Objects live in a heap; a reference is the object's identity. The cache
    [this.clients] is a plain object literal [{}]: a read [this.clients[k]]
    finds the own property [k] or else the member [k] that every plain
    object inherits from [Object.prototype]. *)
Definition loc := nat.

Inductive ref :=
| ClientRef (l : loc)
| ObjectPrototypeMember (name : string).

Definition objectPrototypeKeys : list string :=
  [ "constructor"; "__defineGetter__"; "__defineSetter__"; "hasOwnProperty";
    "__lookupGetter__"; "__lookupSetter__"; "isPrototypeOf";
    "propertyIsEnumerable"; "toString"; "valueOf"; "__proto__";
    "toLocaleString" ].

Record Store := {
  clients : gmap string loc;
  heap : list OAuth2Client;
}.

(** [new ClientManager()] *)
Definition newClientManager : Store := {| clients := ∅; heap := [] |}.

(** [this.clients[accessToken]]; [None] is [undefined]. Every member found
    is an object or a function, hence truthy. *)
Definition getProperty (own : gmap string loc) (k : string) : option ref :=
  match own !! k with
  | Some l => Some (ClientRef l)
  | None =>
    if bool_decide (k ∈ objectPrototypeKeys)
    then Some (ObjectPrototypeMember k) else None
  end.

(** [client.setCredentials({ access_token: accessToken })] *)
Definition setCredentials (accessToken : string) (c : OAuth2Client) : OAuth2Client :=
  {| clientId := clientId c; clientSecret := clientSecret c;
     redirectUri := redirectUri c; credentials := Some accessToken |}.

(** [ClientManager.getClient(accessToken)] *)
Definition getClient (env : Env) (accessToken : string) (σ : Store)
  : completion ref * Store :=
  match getProperty (clients σ) accessToken with
  | Some cachedClient => (Normal cachedClient, σ)
  | None =>
    match initializeOAuth2Client env with
    | Throw e => (Throw e, σ)
    | Normal client =>
      let l := length (heap σ) in
      let σ1 := {| clients := clients σ; heap := heap σ ++ [client] |} in
      let σ2 := {| clients := <[accessToken := l]> (clients σ1); heap := heap σ1 |} in
      let σ3 := {| clients := clients σ2;
                   heap := alter (setCredentials accessToken) l (heap σ2) |} in
      (Normal (ClientRef l), σ3)
    end
  end.

(** A run of calls on one manager, keeping the last store. *)
Definition getClients (env : Env) (tokens : list string) (σ : Store) : Store :=
  foldl (λ σ t, (getClient env t σ).2) σ tokens.

End Auth.

Import Auth.

(** ** The handlers: [src/handlers/core/*.ts] and the server entry point *)

Module Handlers.

(** A tool result: [{ content: [{ type: "text", text }] }]. *)
Record TextContent := { type : string; text : string }.
Record CallToolResult := { content : list TextContent }.

(** One call on the [googleapis] calendar client: the client it was built
    with, the method, and the parameter object handed to it. *)
Record ApiRequest := {
  auth : ref;
  endpoint : string;
  params : gmap string value;
}.

Record CalendarListEntry := { cal_summary : option string; cal_id : option string }.
Record ColorInfo := { background : string; foreground : string }.

(** [response.data] of the calls made here. *)
Inductive ApiResponse :=
| NoData
| CalendarListData (items : option (list CalendarListEntry))
| ColorsData (event : option (list (string * ColorInfo))).

(** The Calendar API is outside the program: an oracle that answers a call
    given the calls made before it. *)
Definition Api : Type := list ApiRequest → ApiRequest → completion ApiResponse.

(** The state a handler runs in: the client manager's store and the log of
    API calls made so far. *)
Record World := { store : Store; apiLog : list ApiRequest }.

(** State and exceptions, threaded the way the handlers thread them. *)
Definition M (A : Type) : Type := World → completion A * World.

Definition ret {A} (a : A) : M A := λ w, (Normal a, w).
Definition throw {A} (e : thrown) : M A := λ w, (Throw e, w).
Definition bind {A B} (m : M A) (k : A → M B) : M B :=
  λ w, match m w with
       | (Normal a, w') => k a w'
       | (Throw e, w') => (Throw e, w')
       end.
Definition tryCatch {A} (m : M A) (handler : thrown → M A) : M A :=
  λ w, match m w with
       | (Normal a, w') => (Normal a, w')
       | (Throw e, w') => handler e w'
       end.
Definition lift {A} (c : completion A) : M A := λ w, (c, w).

Notation "x <~ m ;; k" := (bind m (λ x, k))
  (at level 100, m at next level, right associativity).

(** [await calendar.<endpoint>(params)] *)
Definition callApi (api : Api) (req : ApiRequest) : M ApiResponse :=
  λ w, (api (apiLog w) req, {| store := store w; apiLog := apiLog w ++ [req] |}).

(** [clientManager.getClient(accessToken)] *)
Definition clientManager_getClient (env : Env) (accessToken : string) : M ref :=
  λ w, let '(r, σ) := getClient env accessToken (store w) in
       (r, {| store := σ; apiLog := apiLog w |}).

(** *** [BaseToolHandler] *)

Definition authErrorMessage : string :=
  "Google API Error: Authentication token is invalid or expired. Please re-run the authentication process (e.g., `npm run auth`).".

(** [error.response?.data?.error === 'invalid_grant'] *)
Definition isInvalidGrant (error : thrown) : bool :=
  match error with
  | GaxiosErrorObj _ (DataErrorString s) => String.eqb s "invalid_grant"
  | _ => false
  end.

(** [handleGoogleApiError(error): void] *)
Definition handleGoogleApiError (error : thrown) : M unit :=
  if instanceofGaxiosError error && isInvalidGrant error then
    throw (ErrorObj authErrorMessage)
  else
    throw error.

(** [catch (error) { throw this.handleGoogleApiError(error); }]: were the
    handler to return, its [undefined] result would be thrown. *)
Definition rethrowHandled {A} (error : thrown) : M A :=
  _ <~ handleGoogleApiError error ;; throw (Primitive VUndefined).

(** The schema validators ([../../schemas/validators.js]) are parameters of
    the handlers: [Schema.parse(args)] returns the validated object or
    throws. *)
Definition Schema : Type := gmap string value → completion (gmap string value).

(** [delete (validArgs as any).accessToken] *)
Definition deleteAccessToken (validArgs : gmap string value) : gmap string value :=
  delete "accessToken" validArgs.

(** The three statements every [runTool] below starts with:
    [const validArgs = Schema.parse(args);
     const accessToken = validArgs.accessToken;
     delete (validArgs as any).accessToken;].
    They give the token read and the record [validArgs] as the handler holds
    it from then on; a failed validation throws before either exists. *)
Definition parseAndTakeToken (ArgumentsSchema : Schema) (args : gmap string value)
  : completion (value * gmap string value) :=
  match ArgumentsSchema args with
  | Normal validArgs =>
    let accessToken := prop validArgs "accessToken" in
    let validArgs := deleteAccessToken validArgs in
    Normal (accessToken, validArgs)
  | Throw e => Throw e
  end.

(** *** [DeleteEventHandler] *)

Module DeleteEventHandler.

Definition deleteEvent (api : Api) (client : ref) (args : gmap string value) : M unit :=
  tryCatch
    (_ <~ callApi api {| auth := client; endpoint := "events.delete";
                         params := {[ "calendarId" := prop args "calendarId";
                                      "eventId" := prop args "eventId" ]} |} ;;
     ret ())
    rethrowHandled.

(** [validArgs.accessToken] is typed [string] by the schema; for a string
    [toString] is the identity. *)
Definition runTool
    (DeleteEventArgumentsSchema : Schema) (env : Env) (api : Api)
    (args : gmap string value) : M CallToolResult :=
  parsed <~ lift (parseAndTakeToken DeleteEventArgumentsSchema args) ;;
  let '(accessToken, validArgs) := parsed in
  oauth2Client <~ clientManager_getClient env (toString accessToken) ;;
  _ <~ deleteEvent api oauth2Client validArgs ;;
  ret {| content := [ {| type := "text"; text := "Event deleted successfully" |} ] |}.

End DeleteEventHandler.

(** *** [ListColorsHandler] *)

Module ListColorsHandler.

Definition listColors (api : Api) (client : ref) : M (list (string * ColorInfo)) :=
  tryCatch
    (response <~ callApi api {| auth := client; endpoint := "colors.get"; params := ∅ |} ;;
     match response with
     | NoData => throw (ErrorObj "Failed to retrieve colors")
     | ColorsData (Some event) => ret event
     | ColorsData None | CalendarListData _ => ret []
     end)
    rethrowHandled.

(** The entries of [colors.event] come in [Object.entries] order. *)
Definition formatColorList (eventColors : list (string * ColorInfo)) : string :=
  join (String "010" "")
    (map (λ e, "Color ID: " +:+ e.1 +:+ " - " +:+ background e.2 +:+
               " (background) / " +:+ foreground e.2 +:+ " (foreground)")
         eventColors).

Definition runTool
    (ListColorsArgumentsSchema : Schema) (env : Env) (api : Api)
    (args : gmap string value) : M CallToolResult :=
  parsed <~ lift (parseAndTakeToken ListColorsArgumentsSchema args) ;;
  let '(accessToken, validArgs) := parsed in
  oauth2Client <~ clientManager_getClient env (toString accessToken) ;;
  colors <~ listColors api oauth2Client ;;
  ret {| content := [ {| type := "text";
                         text := "Available event colors:" +:+ String "010" "" +:+
                                 formatColorList colors |} ] |}.

End ListColorsHandler.

(** *** [ListCalendarsHandler] *)

Module ListCalendarsHandler.

Definition listCalendars (api : Api) (client : ref) : M (list CalendarListEntry) :=
  tryCatch
    (response <~ callApi api {| auth := client; endpoint := "calendarList.list"; params := ∅ |} ;;
     match response with
     | NoData =>
       throw (ErrorObj "Cannot read properties of undefined (reading 'items')")
     | CalendarListData (Some items) => ret items
     | CalendarListData None | ColorsData _ => ret []
     end)
    rethrowHandled.

Definition orElse (o : option string) (d : string) : string :=
  if truthy o then default d o else d.

Definition formatCalendarList (calendars : list CalendarListEntry) : string :=
  join (String "010" "")
    (map (λ cal, orElse (cal_summary cal) "Untitled" +:+ " (" +:+
                 orElse (cal_id cal) "no-id" +:+ ")")
         calendars).

Definition runTool
    (ListCalendarsArgumentsSchema : Schema) (env : Env) (api : Api)
    (args : gmap string value) : M CallToolResult :=
  parsed <~ lift (parseAndTakeToken ListCalendarsArgumentsSchema args) ;;
  let '(accessToken, validArgs) := parsed in
  oauth2Client <~ clientManager_getClient env (toString accessToken) ;;
  calendars <~ listCalendars api oauth2Client ;;
  ret {| content := [ {| type := "text"; text := formatCalendarList calendars |} ] |}.

End ListCalendarsHandler.

(** *** The call-tool request handler registered in [main] *)

(** [handleCallTool] ([./handlers/callTool.js]) is the parameter [h]. *)
Definition callToolRequestHandler {Request : Type}
    (handleCallTool : Request → M CallToolResult) (request : Request)
  : M CallToolResult :=
  tryCatch
    (handleCallTool request)
    (λ e, ret {| content :=
                   [ {| type := "text";
                        text := "Error: " +:+ messageOf e |} ] |}).

(** The API calls a run added to the log. *)
Definition newCalls (before after : World) : list ApiRequest :=
  drop (length (apiLog before)) (apiLog after).

End Handlers.

Import Handlers.

(** ** The batch list-events logic of [BatchListEvents.test.ts] *)

Module BatchListEvents.

(** [calendar_v3.Schema$EventDateTime] and the test's [ExtendedEvent]. *)
Record EventDateTime := { date : option string; dateTime : option string }.

Record ExtendedEvent := {
  id : string;
  summary : string;
  start : option EventDateTime;
  end_ : option EventDateTime;
  location : option string;
  calendarId : option string;
}.

(** A sub-response of the batch: [{ statusCode, headers, body }], the body
    carrying an [items] list or an [error] object. *)
Record ErrorInfo := { code : Z; message : string }.
Record Body := { items : option (list ExtendedEvent); error : option ErrorInfo }.
Record SubResponse := {
  statusCode : Z;
  headers : list (string * string);
  body : Body;
}.

(** An entry of [errors]: [{ calendarId, error }]. *)
Record CalendarError := { err_calendarId : option string; err_error : Body }.

(** The two accumulators of the processing loop. *)
Record Outcome := { allEvents : list ExtendedEvent; errors : list CalendarError }.

(** [{ ...event, calendarId }] *)
Definition withCalendarId (cid : option string) (event : ExtendedEvent) : ExtendedEvent :=
  {| id := id event; summary := summary event; start := start event;
     end_ := end_ event; location := location event; calendarId := cid |}.

(** The body of the [forEach] callback: [calendarIds[index]] is [undefined]
    ([None]) past the end of [calendarIds]; an array, even an empty one, is
    truthy. *)
Definition processResponse (calendarIds : list string) (acc : Outcome)
    (index : nat) (response : SubResponse) : Outcome :=
  let cid := calendarIds !! index in
  match (statusCode response =? 200)%Z, items (body response) with
  | true, Some its =>
    let events := map (withCalendarId cid) its in
    {| allEvents := allEvents acc ++ events; errors := errors acc |}
  | _, _ =>
    {| allEvents := allEvents acc;
       errors := errors acc ++ [ {| err_calendarId := cid; err_error := body response |} ] |}
  end.

(** [array.forEach((x, index) => ...)] over an accumulator. *)
Fixpoint forEachFrom {A St : Type} (f : St → nat → A → St) (index : nat)
    (l : list A) (acc : St) : St :=
  match l with
  | [] => acc
  | x :: rest => forEachFrom f (S index) rest (f acc index x)
  end.

(** The processing of a batch's sub-responses, from the empty accumulators. *)
Definition processBatchResponses (calendarIds : list string)
    (responses : list SubResponse) : Outcome :=
  forEachFrom (processResponse calendarIds) 0 responses
    {| allEvents := []; errors := [] |}.

(** [a.start?.dateTime || a.start?.date || ''] *)
Definition startKey (e : ExtendedEvent) : string :=
  let dt := start e ≫= dateTime in
  let d := start e ≫= date in
  if truthy dt then default "" dt
  else if truthy d then default "" d
  else "".

(** [Array.prototype.sort(compareFn)]: the sort is stable, so under a
    consistent comparator its result is the one an insertion from the right
    gives. The sign of the comparator's number is a [comparison]. *)
Section Sort.
Context {A : Type} (compareFn : A → A → comparison).

Fixpoint insertSorted (x : A) (l : list A) : list A :=
  match l with
  | [] => [x]
  | y :: rest =>
    match compareFn x y with
    | Gt => y :: insertSorted x rest
    | _ => x :: y :: rest
    end
  end.

Definition sort (l : list A) : list A := foldr insertSorted [] l.

End Sort.

(** [events.sort((a, b) => aStart.localeCompare(bStart))];
    [String.prototype.localeCompare] belongs to the host and is a parameter. *)
Definition sortEvents (localeCompare : string → string → comparison)
    (events : list ExtendedEvent) : list ExtendedEvent :=
  sort (λ a b, localeCompare (startKey a) (startKey b)) events.

(** *** Request paths and the multipart body *)

Record BatchRequest := { method : string; path : string }.

Record Options := { timeMin : string; timeMax : option string }.

Definition CRLF : string := String "013" (String "010" "").

(** The entries given to [URLSearchParams] by the code that builds a path
    from a calendar id: the four of them, [timeMax: options.timeMax]
    included. A value is converted to a string, so an [options] without a
    [timeMax] gives the text [undefined]. *)
Definition searchParams (options : Options) : list (string * string) :=
  [ ("singleEvents", "true"); ("orderBy", "startTime");
    ("timeMin", timeMin options);
    ("timeMax", default "undefined" (timeMax options)) ].

(** The path of one calendar's request. *)
Definition requestPath (options : Options) (calendarId : string) : string :=
  "/calendar/v3/calendars/" +:+ encodeURIComponent calendarId +:+ "/events?" +:+
  URLSearchParams_toString (searchParams options).

(** The path of the optional-parameters test, whose [options] has no
    [timeMax]: the calendar is the literal [primary], and three entries are
    given to [URLSearchParams]. *)
Definition primaryPathWithoutTimeMax (options : Options) : string :=
  "/calendar/v3/calendars/primary/events?" +:+
  URLSearchParams_toString
    [ ("singleEvents", "true"); ("orderBy", "startTime");
      ("timeMin", timeMin options) ].

Definition createRequests (calendarIds : list string) (options : Options)
  : list BatchRequest :=
  map (λ calendarId, {| method := "GET"; path := requestPath options calendarId |})
      calendarIds.

(** One part of the body: the five lines joined by CRLF. *)
Definition createPart (boundary : string) (index : nat) (req : BatchRequest) : string :=
  join CRLF
    [ "--" +:+ boundary;
      "Content-Type: application/http";
      "Content-ID: <item" +:+ pretty (index + 1) +:+ ">";
      "";
      method req +:+ " " +:+ path req +:+ " HTTP/1.1" ].

Definition createBatchBody (boundary : string) (requests : list BatchRequest) : string :=
  join (CRLF +:+ CRLF) (imap (createPart boundary) requests) +:+
  CRLF +:+ "--" +:+ boundary +:+ "--".

Definition build (boundary : string) (calendarIds : list string) (options : Options)
  : string :=
  createBatchBody boundary (createRequests calendarIds options).

End BatchListEvents.

Import BatchListEvents.

(** ** The list-events handler, its validator and the batch executor

    [ListEventsHandler.ts], the batch request handler and
    [schemas/validators.ts] are not among the sources; only their tests are.
    This module models them from the specification, on top of the
    definitions above. *)

Module ListEvents.

(** *** Argument validation *)

Inductive RawCalendarId :=
| RawString (s : string)
| RawArray (l : list string).

Record RawArgs := {
  raw_calendarId : RawCalendarId;
  raw_timeMin : option string;
  raw_timeMax : option string;
}.

Inductive CalendarIdArg :=
| SingleId (s : string)
| IdArray (l : list string).

Record ValidArgs := {
  arg_calendarId : CalendarIdArg;
  arg_timeMin : option string;
  arg_timeMax : option string;
}.

(** What decoding a string as JSON can give. *)
Inductive Decoded :=
| DecodeFailure
| DecodedStringArray (l : list string)
| DecodedOther.

(** Modelled from the spec: the bounds of a calendar-id array, which
    [ListEventsArgumentsSchema] (not in the sources) enforces: 1 to 50
    entries. *)
Definition validateArray (l : list string) : option CalendarIdArg :=
  if (1 <=? length l)%nat && (length l <=? 50)%nat then Some (IdArray l) else None.

(** Modelled from the spec: the [calendarId] rule of
    [ListEventsArgumentsSchema] (not in the sources). An array is checked
    against the bounds; a string that decodes to an array of strings is read
    as that array; any other string, one whose decoding fails included, is a
    literal calendar id. The JSON decoder is the host's and a parameter. *)
Definition validateCalendarId (jsonDecode : string → Decoded)
    (raw : RawCalendarId) : option CalendarIdArg :=
  match raw with
  | RawArray l => validateArray l
  | RawString s =>
    match jsonDecode s with
    | DecodedStringArray l => validateArray l
    | DecodeFailure | DecodedOther => Some (SingleId s)
    end
  end.

(** Modelled from the spec: the [timeMin]/[timeMax] rule of
    [ListEventsArgumentsSchema] (not in the sources): a value that is given
    must be an ISO-8601 date-time with timezone. The format test is a
    parameter. *)
Definition validateTime (isIsoDateTimeWithZone : string → bool)
    (t : option string) : bool :=
  match t with
  | Some s => isIsoDateTimeWithZone s
  | None => true
  end.

(** Modelled from the spec: [ListEventsArgumentsSchema.safeParse] (not in
    the sources); [None] is a validation failure. *)
Definition safeParse (jsonDecode : string → Decoded)
    (isIsoDateTimeWithZone : string → bool) (raw : RawArgs) : option ValidArgs :=
  match validateCalendarId jsonDecode (raw_calendarId raw) with
  | None => None
  | Some cid =>
    if validateTime isIsoDateTimeWithZone (raw_timeMin raw) &&
       validateTime isIsoDateTimeWithZone (raw_timeMax raw)
    then Some {| arg_calendarId := cid;
                 arg_timeMin := raw_timeMin raw;
                 arg_timeMax := raw_timeMax raw |}
    else None
  end.

(** *** Effects of the list-events paths *)

(** The parameter object of a direct [events.list] call. *)
Record ListParams := {
  lp_calendarId : string;
  lp_timeMin : string;
  lp_timeMax : option string;
  lp_singleEvents : bool;
  lp_orderBy : string;
}.

(** A raw HTTP request. *)
Record HttpRequest := {
  http_method : string;
  http_url : string;
  http_contentType : string;
  http_authorization : string;
  http_body : string;
}.

(** What an execution did: the direct API calls and the network calls it
    made, oldest first. *)
Record Effects := {
  directCalls : list ListParams;
  networkCalls : list HttpRequest;
}.

Inductive Failure :=
| AuthenticationError
| ConfigurationError
| NetworkError
| ParseError
| InternalError
| ApiFailure (e : thrown).

(** The capabilities the list-events code consumes; the specification names
    them and leaves their content to the environment. The two oracles answer
    given the calls made before. *)
Record Collaborators := {
  localeCompare : string → string → comparison;
  boundary : string;
  batchEndpoint : string;
  fetch : list HttpRequest → HttpRequest → option string;
  eventsList : list ListParams → ListParams → completion (list ExtendedEvent);
  parseBatchResponse : string → option (list SubResponse);
  formatOutcome : Outcome → list string → string;
  formatEventList : list ExtendedEvent → string;
}.

(** [AuthorizedClient.getAccessToken()]: the token, or [None] when it cannot
    be obtained. *)
Record AuthorizedClient := { getAccessToken : option string }.

(** Modelled from the spec: the sub-request path of [BatchRequestBuilder]
    (not in the sources): the query carries [singleEvents], [orderBy] and
    [timeMin], and [timeMax] only when the filters have one. *)
Definition builderPath (options : Options) (calendarId : string) : string :=
  "/calendar/v3/calendars/" +:+ encodeURIComponent calendarId +:+ "/events?" +:+
  URLSearchParams_toString
    ([ ("singleEvents", "true"); ("orderBy", "startTime");
       ("timeMin", timeMin options) ] ++
     match timeMax options with
     | Some t => [ ("timeMax", t) ]
     | None => []
     end).

(** Modelled from the spec: the envelope of [BatchRequestBuilder] (not in
    the sources): one GET request per calendar, serialized as the test's
    body is. *)
Definition builderBody (boundary : string) (calendarIds : list string)
    (options : Options) : string :=
  createBatchBody boundary
    (map (λ calendarId, {| method := "GET"; path := builderPath options calendarId |})
         calendarIds).

(** Modelled from the spec: [BatchRequestBuilder.build] (not in the sources),
    which refuses an empty list and one of more than 50 entries. *)
Definition buildEnvelope (C : Collaborators) (calendarIds : list string)
    (options : Options) : Failure + string :=
  if (1 <=? length calendarIds)%nat && (length calendarIds <=? 50)%nat
  then inr (builderBody (boundary C) calendarIds options)
  else inl ConfigurationError.

(** Modelled from the spec: [BatchRequestExecutor.execute] (not in the
    sources): obtain the token, failing without a request when there is
    none; else one POST of the envelope to the batch endpoint, not retried
    when it fails. *)
Definition execute (C : Collaborators) (envelope : string)
    (client : AuthorizedClient) (fx : Effects) : (Failure + string) * Effects :=
  match getAccessToken client with
  | None => (inl AuthenticationError, fx)
  | Some token =>
    let req := {| http_method := "POST";
                  http_url := batchEndpoint C;
                  http_contentType := "multipart/mixed; boundary=" +:+ boundary C;
                  http_authorization := "Bearer " +:+ token;
                  http_body := envelope |} in
    (match fetch C (networkCalls fx) req with
     | Some text => inr text
     | None => inl NetworkError
     end,
     {| directCalls := directCalls fx; networkCalls := networkCalls fx ++ [req] |})
  end.

(** Modelled from the spec: [EventMerger.merge] (not in the sources): a
    length mismatch is an internal error; else the processing loop, then the
    start-time sort of the events. *)
Definition merge (C : Collaborators) (calendarIds : list string)
    (subResponses : list SubResponse) : Failure + Outcome :=
  if bool_decide (length calendarIds = length subResponses) then
    let o := processBatchResponses calendarIds subResponses in
    inr {| allEvents := sortEvents (localeCompare C) (allEvents o);
           errors := errors o |}
  else inl InternalError.

(** Modelled from the spec: the batch path of the list-events handler (not
    in the sources): build, execute, parse, merge, format. *)
Definition batchListEvents (C : Collaborators) (calendarIds : list string)
    (options : Options) (client : AuthorizedClient) (fx : Effects)
  : (Failure + string) * Effects :=
  match buildEnvelope C calendarIds options with
  | inl e => (inl e, fx)
  | inr envelope =>
    match execute C envelope client fx with
    | (inl e, fx') => (inl e, fx')
    | (inr raw, fx') =>
      match parseBatchResponse C raw with
      | None => (inl ParseError, fx')
      | Some subResponses =>
        match merge C calendarIds subResponses with
        | inl e => (inl e, fx')
        | inr outcome => (inr (formatOutcome C outcome calendarIds), fx')
        end
      end
    end
  end.

(** Modelled from the spec: the single-calendar path of the list-events
    handler (not in the sources): one direct [events.list] call, its events
    rendered by the per-event formatter alone. *)
Definition directListEvents (C : Collaborators) (calendarId : string)
    (options : Options) (fx : Effects) : (Failure + string) * Effects :=
  let p := {| lp_calendarId := calendarId;
              lp_timeMin := timeMin options;
              lp_timeMax := timeMax options;
              lp_singleEvents := true;
              lp_orderBy := "startTime" |} in
  (match eventsList C (directCalls fx) p with
   | Normal events => inr (formatEventList C events)
   | Throw e => inl (ApiFailure e)
   end,
   {| directCalls := directCalls fx ++ [p]; networkCalls := networkCalls fx |}).

(** The requested calendars as a list. *)
Definition calendarIdsOf (cid : CalendarIdArg) : list string :=
  match cid with
  | SingleId s => [s]
  | IdArray l => l
  end.

(** Modelled from the spec: the list-events handler (not in the sources):
    exactly one requested calendar takes the direct path, any other number
    the batch path. *)
Definition listEvents (C : Collaborators) (cid : CalendarIdArg)
    (options : Options) (client : AuthorizedClient) (fx : Effects)
  : (Failure + string) * Effects :=
  match calendarIdsOf cid with
  | [calendarId] => directListEvents C calendarId options fx
  | calendarIds => batchListEvents C calendarIds options client fx
  end.

(** *** Concrete instances of the host functions, for worked examples *)

(** A decoder for JSON arrays of plain strings (no escapes), as a scan over
    the characters. *)
Inductive ScanState :=
| AtStart
| AfterOpen
| InString (cur : string)
| AfterItem
| AfterComma
| AtEnd
| Stuck.

Definition isSpace (c : ascii) : bool :=
  (Ascii.eqb c " " || Ascii.eqb c "009" || Ascii.eqb c "010" || Ascii.eqb c "013")%bool.

Definition scanStep (st : ScanState) (acc : list string) (c : ascii)
  : ScanState * list string :=
  match st with
  | AtStart =>
    if isSpace c then (AtStart, acc)
    else if Ascii.eqb c "[" then (AfterOpen, acc) else (Stuck, acc)
  | AfterOpen =>
    if isSpace c then (AfterOpen, acc)
    else if Ascii.eqb c "]" then (AtEnd, acc)
    else if Ascii.eqb c "034" then (InString "", acc) else (Stuck, acc)
  | InString cur =>
    if Ascii.eqb c "034" then (AfterItem, (acc ++ [cur])%list)
    else if Ascii.eqb c "\" then (Stuck, acc)
    else (InString (cur +:+ String c ""), acc)
  | AfterItem =>
    if isSpace c then (AfterItem, acc)
    else if Ascii.eqb c "," then (AfterComma, acc)
    else if Ascii.eqb c "]" then (AtEnd, acc) else (Stuck, acc)
  | AfterComma =>
    if isSpace c then (AfterComma, acc)
    else if Ascii.eqb c "034" then (InString "", acc) else (Stuck, acc)
  | AtEnd => if isSpace c then (AtEnd, acc) else (Stuck, acc)
  | Stuck => (Stuck, acc)
  end.

Fixpoint scan (st : ScanState) (acc : list string) (s : string) : Decoded :=
  match s with
  | "" => match st with
          | AtEnd => DecodedStringArray acc
          | _ => DecodeFailure
          end
  | String c r => let '(st', acc') := scanStep st acc c in scan st' acc' r
  end.

Definition decodeStringArray (s : string) : Decoded := scan AtStart [] s.

(** A format test for [YYYY-MM-DDTHH:MM:SS] followed by [Z] or [+HH:MM] or
    [-HH:MM]. *)
Definition isDigit (c : ascii) : bool :=
  let n := N_of_ascii c in ((48 <=? n) && (n <=? 57))%N.

Fixpoint matchShape (shape s : list ascii) : bool :=
  match shape, s with
  | [], [] => true
  | p :: shape', c :: s' =>
    (if Ascii.eqb p "d" then isDigit c else Ascii.eqb p c) && matchShape shape' s'
  | _, _ => false
  end.

Definition isoDateTimeShape (s : string) : bool :=
  let cs := list_ascii_of_string s in
  matchShape (list_ascii_of_string "dddd-dd-ddTdd:dd:ddZ") cs ||
  matchShape (list_ascii_of_string "dddd-dd-ddTdd:dd:dd+dd:dd") cs ||
  matchShape (list_ascii_of_string "dddd-dd-ddTdd:dd:dd-dd:dd") cs.

(** Code-unit lexicographic comparison, the comparator the specification
    describes. *)
Definition lexCompare (a b : string) : comparison := String.compare a b.

(** A comparator that, as a collation does, gives no weight to the character
    U+0000: the strings are compared without it. *)
Fixpoint dropNul (s : string) : string :=
  match s with
  | "" => ""
  | String c rest =>
    if Ascii.eqb c "000" then dropNul rest else String c (dropNul rest)
  end.

Definition nulIgnoringCompare (a b : string) : comparison :=
  lexCompare (dropNul a) (dropNul b).

(** An environment whose network answers every request with an empty
    batch and whose API returns no events. *)
Definition quietCollaborators : Collaborators :=
  {| localeCompare := lexCompare;
     boundary := "batch_boundary_test";
     batchEndpoint := "https://www.googleapis.com/batch/calendar/v3";
     fetch := λ _ _, Some "";
     eventsList := λ _ _, Normal [];
     parseBatchResponse := λ _, Some [];
     formatOutcome := λ _ _, "";
     formatEventList := λ _, "" |}.

End ListEvents.

Import ListEvents.

(* ===================================================================== *)
(** * Part II: the theorems                                               *)
(* ===================================================================== *)

(** ** The client manager *)

Section ClientManagerFacts.

Variable env : Env.

(** The stores a manager can be in: every cached token is an ordinary key
    and names a heap client that carries that token. *)
Definition storeOk (σ : Store) : Prop :=
  ∀ t l, clients σ !! t = Some l →
    (t ∉ objectPrototypeKeys) ∧
    (∃ c, heap σ !! l = Some c ∧ credentials c = Some t).

Lemma storeOk_new : storeOk newClientManager.
Proof. intros t l H. simpl in H. by rewrite lookup_empty in H. Qed.

Lemma getProperty_own σ t l :
  clients σ !! t = Some l → getProperty (clients σ) t = Some (ClientRef l).
Proof. intros H. unfold getProperty. by rewrite H. Qed.

Lemma getProperty_None (own : gmap string loc) t :
  getProperty own t = None ↔ own !! t = None ∧ t ∉ objectPrototypeKeys.
Proof.
  unfold getProperty. destruct (own !! t) eqn:E.
  - split; [done | by intros [? _]].
  - case_bool_decide; split; try done. by intros [_ ?].
Qed.

(** A cache hit changes nothing. *)
Lemma getClient_hit σ t r :
  getProperty (clients σ) t = Some r → getClient env t σ = (Normal r, σ).
Proof. intros H. unfold getClient. by rewrite H. Qed.

(** A miss with a usable environment allocates, caches and sets the token. *)
Lemma getClient_miss σ t client :
  getProperty (clients σ) t = None →
  initializeOAuth2Client env = Normal client →
  getClient env t σ =
    (Normal (ClientRef (length (heap σ))),
     {| clients := <[t := length (heap σ)]> (clients σ);
        heap := heap σ ++ [setCredentials t client] |}).
Proof.
  intros Hp Hi. unfold getClient. rewrite Hp, Hi. simpl. do 2 f_equal.
  rewrite alter_app_r_alt by lia. by rewrite Nat.sub_diag.
Qed.

Lemma getClient_miss_throw σ t e :
  getProperty (clients σ) t = None →
  initializeOAuth2Client env = Throw e →
  getClient env t σ = (Throw e, σ).
Proof. intros Hp Hi. unfold getClient. by rewrite Hp, Hi. Qed.

(** One call keeps the store well-formed, keeps every cached entry and the
    client it names, and never shortens the heap. *)
Lemma getClient_step σ t :
  storeOk σ →
  let σ' := (getClient env t σ).2 in
  storeOk σ' ∧
  (∀ t0 l, clients σ !! t0 = Some l →
     clients σ' !! t0 = Some l ∧ heap σ' !! l = heap σ !! l).
Proof.
  intros Hok. simpl.
  destruct (getProperty (clients σ) t) as [r|] eqn:Hp.
  { rewrite (getClient_hit _ _ _ Hp). simpl. split; [done|]. by intros. }
  destruct (initializeOAuth2Client env) as [client|e] eqn:Hi.
  2:{ rewrite (getClient_miss_throw _ _ _ Hp Hi). simpl. split; [done|]. by intros. }
  rewrite (getClient_miss _ _ _ Hp Hi). simpl.
  apply getProperty_None in Hp as [Hnone Hkey].
  split.
  - intros t0 l. simpl. destruct (decide (t = t0)) as [<-|Hne].
    + rewrite lookup_insert_eq. intros [= <-]. split; [done|].
      exists (setCredentials t client). split; [|done].
      rewrite lookup_app_r by lia. by rewrite Nat.sub_diag.
    + rewrite lookup_insert_ne by done. intros Hl.
      destruct (Hok _ _ Hl) as (Hk & c & Hc & Hcred). split; [done|].
      exists c. split; [|done]. by apply lookup_app_l_Some.
  - intros t0 l Hl. assert (t ≠ t0) by congruence.
    rewrite lookup_insert_ne by done. split; [done|].
    destruct (Hok _ _ Hl) as (_ & c & Hc & _).
    rewrite Hc. by apply lookup_app_l_Some.
Qed.

Lemma getClients_step σ ts :
  storeOk σ →
  storeOk (getClients env ts σ) ∧
  (∀ t0 l, clients σ !! t0 = Some l →
     clients (getClients env ts σ) !! t0 = Some l ∧
     heap (getClients env ts σ) !! l = heap σ !! l).
Proof.
  revert σ. induction ts as [|t ts IH]; intros σ Hok; simpl.
  { split; [done|]. by intros. }
  destruct (getClient_step σ t Hok) as [Hok' Hkeep].
  destruct (IH _ Hok') as [Hok'' Hkeep'].
  split; [done|]. intros t0 l Hl.
  destruct (Hkeep _ _ Hl) as [Hl' Hh'].
  destruct (Hkeep' _ _ Hl') as [Hl'' Hh'']. split; [done|]. congruence.
Qed.

(** The stores reachable from a new manager are well-formed. *)
Lemma storeOk_reachable ts : storeOk (getClients env ts newClientManager).
Proof. apply getClients_step, storeOk_new. Qed.

(** Memoization: once [getClient t] has answered, it gives the same
    reference after any further calls, and a client it names is unchanged
    and carries [t]. *)
Lemma getClient_memoized ts1 t ts2 r σ2 :
  getClient env t (getClients env ts1 newClientManager) = (Normal r, σ2) →
  let σ3 := getClients env ts2 σ2 in
  getClient env t σ3 = (Normal r, σ3) ∧
  (∀ l, r = ClientRef l →
     heap σ3 !! l = heap σ2 !! l ∧
     ∃ c, heap σ2 !! l = Some c ∧ credentials c = Some t).
Proof.
  intros Hfirst. simpl.
  pose proof (storeOk_reachable ts1) as Hok1.
  pose proof (getClient_step _ t Hok1) as [Hok2 _]. rewrite Hfirst in Hok2. simpl in Hok2.
  destruct (getClients_step σ2 ts2 Hok2) as [Hok3 Hkeep].
  set (σ1 := getClients env ts1 newClientManager) in *.
  destruct (getProperty (clients σ1) t) as [r0|] eqn:Hp.
  - rewrite (getClient_hit _ _ _ Hp) in Hfirst. injection Hfirst as <- <-.
    unfold getProperty in Hp. destruct (clients σ1 !! t) as [l|] eqn:Hl.
    + injection Hp as <-. destruct (Hkeep _ _ Hl) as [Hl3 Hh3]. split.
      * apply getClient_hit. by apply getProperty_own.
      * intros l' [= <-]. split; [done|]. by destruct (Hok1 _ _ Hl) as (_ & c & ? & ?); eauto.
    + case_bool_decide as Hk; [|done]. injection Hp as <-. split; [|done].
      apply getClient_hit. unfold getProperty.
      destruct (clients (getClients env ts2 σ1) !! t) as [l|] eqn:Hl3.
      * by destruct (Hok3 _ _ Hl3) as [? _].
      * by rewrite bool_decide_eq_true_2.
  - destruct (initializeOAuth2Client env) as [client|e] eqn:Hi.
    2:{ by rewrite (getClient_miss_throw _ _ _ Hp Hi) in Hfirst. }
    rewrite (getClient_miss _ _ _ Hp Hi) in Hfirst. injection Hfirst as <- <-.
    set (σ2 := {| clients := _; heap := _ |}) in *.
    assert (clients σ2 !! t = Some (length (heap σ1))) as Hl by apply lookup_insert_eq.
    destruct (Hkeep _ _ Hl) as [Hl3 Hh3]. split.
    + apply getClient_hit. by apply getProperty_own.
    + intros l' [= <-]. split; [done|]. by destruct (Hok2 _ _ Hl) as (_ & c & ? & ?); eauto.
Qed.

End ClientManagerFacts.

(** C9, where the code departs from the claim: the cache is a plain object,
    so a read under a key that [Object.prototype] defines finds the
    inherited member. For the token [constructor] the very first call on a
    new manager returns that member: no client is created, no credential is
    set, nothing is cached, and so it stays on every later call. *)
Theorem getClient_inherited_key_creates_no_client (env : Env) :
  getClient env "constructor" newClientManager
    = (Normal (ObjectPrototypeMember "constructor"), newClientManager) ∧
  (∀ n, getClients env (replicate n "constructor") newClientManager
          = newClientManager) ∧
  heap (getClient env "constructor" newClientManager).2 = [] ∧
  clients (getClient env "constructor" newClientManager).2 !! "constructor" = None.
Proof.
  assert (getClient env "constructor" newClientManager
            = (Normal (ObjectPrototypeMember "constructor"), newClientManager)) as H.
  { apply getClient_hit. reflexivity. }
  split; [done|]. split.
  - induction n as [|n IH]; [done|]. simpl. unfold getClients in IH.
    by rewrite H.
  - by rewrite H.
Qed.

(** What the cache does for an ordinary token in a configured process: the
    first call builds a client carrying the token and caches it. *)
Lemma getClient_first_call (env : Env) (σ : Store) (t id secret : string) :
  GOOGLE_CLIENT_ID env = Some id → id ≠ "" →
  GOOGLE_CLIENT_SECRET env = Some secret → secret ≠ "" →
  t ∉ objectPrototypeKeys →
  clients σ !! t = None →
  ∃ client,
    credentials client = Some t ∧
    getClient env t σ =
      (Normal (ClientRef (length (heap σ))),
       {| clients := <[t := length (heap σ)]> (clients σ);
          heap := heap σ ++ [client] |}).
Proof.
  intros Hid Hne Hsec Hne' Hkey Hnone.
  assert (∃ c, initializeOAuth2Client env = Normal c) as [c Hc].
  { unfold initializeOAuth2Client. rewrite Hid, Hsec. simpl.
    destruct (String.eqb_spec id ""); [done|].
    destruct (String.eqb_spec secret ""); [done|]. simpl. eauto. }
  exists (setCredentials t c). split; [done|].
  apply getClient_miss; [|done]. by apply getProperty_None.
Qed.

(** ** The handler boundary and the shared error handler *)

Section HandlerFacts.

(** The text result the server builds from a thrown value. *)
Definition errorResult (e : thrown) : CallToolResult :=
  {| content := [ {| type := "text"; text := "Error: " +:+ messageOf e |} ] |}.

(** C7: whatever [handleCallTool] does, the registered handler completes
    normally. A result passes through; a thrown value becomes the result
    with the single text item [Error: ] followed by the error's message, or
    by its string form when it is not an [Error]. *)
Theorem callTool_errors_become_text_results
    {Request : Type} (handleCallTool : Request → M CallToolResult)
    (request : Request) (w : World) :
  ∃ result,
    callToolRequestHandler handleCallTool request w
      = (Normal result, (handleCallTool request w).2) ∧
    match (handleCallTool request w).1 with
    | Normal r => result = r
    | Throw e =>
      result = errorResult e ∧
      length (content result) = 1 ∧
      match e with
      | ErrorObj m | GaxiosErrorObj m _ | ZodErrorObj m =>
        content result = [ {| type := "text"; text := "Error: " +:+ m |} ]
      | Primitive v =>
        content result = [ {| type := "text"; text := "Error: " +:+ toString v |} ]
      | OtherObject str =>
        content result = [ {| type := "text"; text := "Error: " +:+ str |} ]
      end
    end.
Proof.
  unfold callToolRequestHandler, tryCatch.
  destruct (handleCallTool request w) as [[r|e] w']; simpl.
  - by exists r.
  - exists (errorResult e). split; [done|]. split; [done|]. split; [done|].
    by destruct e.
Qed.

(** What [handleGoogleApiError] throws for [error]. *)
Definition handled (error : thrown) : thrown :=
  if isInvalidGrant error then ErrorObj authErrorMessage else error.

Lemma handleGoogleApiError_throws error w :
  handleGoogleApiError error w = (Throw (handled error), w).
Proof.
  unfold handleGoogleApiError, handled.
  destruct error as [m|m [|s|c m']|m|v|str]; simpl; try done.
  by destruct (String.eqb s "invalid_grant").
Qed.

Lemma rethrowHandled_throws {A} error w :
  @rethrowHandled A error w = (Throw (handled error), w).
Proof. unfold rethrowHandled, bind. by rewrite handleGoogleApiError_throws. Qed.

(** The one shape of error that the handler replaces. *)
Lemma handled_invalid_grant m :
  handled (GaxiosErrorObj m (DataErrorString "invalid_grant")) = ErrorObj authErrorMessage.
Proof. reflexivity. Qed.

Lemma handled_other error :
  (∀ m, error ≠ GaxiosErrorObj m (DataErrorString "invalid_grant")) →
  handled error = error.
Proof.
  intros H. unfold handled.
  destruct error as [m|m [|s|c m']|m|v|str]; simpl; try done.
  destruct (String.eqb_spec s "invalid_grant") as [->|]; [|done].
  by destruct (H m).
Qed.

(** The three API-calling methods make their one call and, when it throws,
    throw what the error handler makes of the error. *)
Lemma deleteEvent_run api client args w :
  let req := {| auth := client; endpoint := "events.delete";
                params := {[ "calendarId" := prop args "calendarId";
                             "eventId" := prop args "eventId" ]} |} in
  DeleteEventHandler.deleteEvent api client args w =
    (match api (apiLog w) req with
     | Normal _ => Normal ()
     | Throw e => Throw (handled e)
     end,
     {| store := store w; apiLog := apiLog w ++ [req] |}).
Proof.
  simpl. unfold DeleteEventHandler.deleteEvent, tryCatch, bind, callApi, ret.
  destruct (api _ _) as [r|e]; [done|]. by rewrite rethrowHandled_throws.
Qed.

Lemma listColors_run api client w :
  let req := {| auth := client; endpoint := "colors.get"; params := ∅ |} in
  ∃ c, ListColorsHandler.listColors api client w =
         (c, {| store := store w; apiLog := apiLog w ++ [req] |}) ∧
       ∀ e, api (apiLog w) req = Throw e → c = Throw (handled e).
Proof.
  simpl. unfold ListColorsHandler.listColors, tryCatch, bind, callApi, ret, throw.
  destruct (api _ _) as [[|its|[ev|]]|e]; simpl;
    try rewrite rethrowHandled_throws; eexists; (split; [reflexivity|]);
    intros e0 [=]; by subst.
Qed.

Lemma listCalendars_run api client w :
  let req := {| auth := client; endpoint := "calendarList.list"; params := ∅ |} in
  ∃ c, ListCalendarsHandler.listCalendars api client w =
         (c, {| store := store w; apiLog := apiLog w ++ [req] |}) ∧
       ∀ e, api (apiLog w) req = Throw e → c = Throw (handled e).
Proof.
  simpl. unfold ListCalendarsHandler.listCalendars, tryCatch, bind, callApi, ret, throw.
  destruct (api _ _) as [[|[its|]|ev]|e]; simpl;
    try rewrite rethrowHandled_throws; eexists; (split; [reflexivity|]);
    intros e0 [=]; by subst.
Qed.

(** How a method that made the API call with answer [answer] may end when
    the call failed: with the re-authentication error when the failure is a
    [GaxiosError] whose response data has [error] equal to [invalid_grant],
    and with the very error of the call in every other case. *)
Definition surfaces {A} (answer : completion ApiResponse) (outcome : completion A) : Prop :=
  (∀ m, answer = Throw (GaxiosErrorObj m (DataErrorString "invalid_grant")) →
        outcome = Throw (ErrorObj authErrorMessage)) ∧
  (∀ e, (∀ m, e ≠ GaxiosErrorObj m (DataErrorString "invalid_grant")) →
        answer = Throw e → outcome = Throw e).

Lemma surfaces_handled {A} (answer : completion ApiResponse) (outcome : completion A) :
  (∀ e, answer = Throw e → outcome = Throw (handled e)) → surfaces answer outcome.
Proof.
  intros H. split.
  - intros m Hm. by rewrite (H _ Hm).
  - intros e He Ha. by rewrite (H _ Ha), handled_other.
Qed.


End HandlerFacts.

(** ** The access token and the arguments forwarded to the API *)

Section AccessTokenFacts.

Variables (schema : Schema) (env : Env) (api : Api).

Lemma deleteAccessToken_gone (validArgs : gmap string value) :
  deleteAccessToken validArgs !! "accessToken" = None.
Proof. apply lookup_delete_eq. Qed.

Lemma deleteAccessToken_frame (validArgs : gmap string value) (k : string) :
  k ≠ "accessToken" → deleteAccessToken validArgs !! k = validArgs !! k.
Proof. intros H. by apply lookup_delete_ne. Qed.

Lemma prop_deleteAccessToken (validArgs : gmap string value) (k : string) :
  k ≠ "accessToken" → prop (deleteAccessToken validArgs) k = prop validArgs k.
Proof. intros H. unfold prop. by rewrite deleteAccessToken_frame. Qed.

(** The first three statements of a handler, by the outcome of validation. *)
Lemma parseAndTakeToken_Normal (args v : gmap string value) :
  schema args = Normal v →
  parseAndTakeToken schema args = Normal (prop v "accessToken", deleteAccessToken v).
Proof. intros H. unfold parseAndTakeToken. by rewrite H. Qed.

Lemma parseAndTakeToken_Throw (args : gmap string value) e :
  schema args = Throw e → parseAndTakeToken schema args = Throw e.
Proof. intros H. unfold parseAndTakeToken. by rewrite H. Qed.

(** What the handlers do once they hold the token and the record [held]. *)
Definition deleteEventFrom (accessToken : value) (held : gmap string value)
  : M CallToolResult :=
  oauth2Client <~ clientManager_getClient env (toString accessToken) ;;
  _ <~ DeleteEventHandler.deleteEvent api oauth2Client held ;;
  ret {| content := [ {| type := "text"; text := "Event deleted successfully" |} ] |}.

Definition listColorsFrom (accessToken : value) : M CallToolResult :=
  oauth2Client <~ clientManager_getClient env (toString accessToken) ;;
  colors <~ ListColorsHandler.listColors api oauth2Client ;;
  ret {| content := [ {| type := "text";
                         text := "Available event colors:" +:+ String "010" "" +:+
                                 ListColorsHandler.formatColorList colors |} ] |}.

Definition listCalendarsFrom (accessToken : value) : M CallToolResult :=
  oauth2Client <~ clientManager_getClient env (toString accessToken) ;;
  calendars <~ ListCalendarsHandler.listCalendars api oauth2Client ;;
  ret {| content := [ {| type := "text";
                         text := ListCalendarsHandler.formatCalendarList calendars |} ] |}.

(** The record a handler holds once its first three statements are done,
    and how the run goes on from it: validation gave [validArgs], the token
    is the [accessToken] field read from it, the record held has no
    [accessToken] field and every other field as validated, and the rest of
    the run is given the token and that record. A failed validation ends the
    run in the world it started in. *)
Definition tokenTakenFirst (args : gmap string value) (w : World) : Prop :=
  match parseAndTakeToken schema args with
  | Normal (accessToken, held) =>
    ∃ validArgs,
      schema args = Normal validArgs ∧
      accessToken = prop validArgs "accessToken" ∧
      held !! "accessToken" = None ∧
      (∀ k, k ≠ "accessToken" → held !! k = validArgs !! k) ∧
      DeleteEventHandler.runTool schema env api args w = deleteEventFrom accessToken held w ∧
      ListColorsHandler.runTool schema env api args w = listColorsFrom accessToken w ∧
      ListCalendarsHandler.runTool schema env api args w = listCalendarsFrom accessToken w
  | Throw e =>
    schema args = Throw e ∧
    DeleteEventHandler.runTool schema env api args w = (Throw e, w) ∧
    ListColorsHandler.runTool schema env api args w = (Throw e, w) ∧
    ListCalendarsHandler.runTool schema env api args w = (Throw e, w)
  end.

Lemma tokenTakenFirst_holds args w : tokenTakenFirst args w.
Proof.
  unfold tokenTakenFirst.
  unfold DeleteEventHandler.runTool, ListColorsHandler.runTool,
    ListCalendarsHandler.runTool, bind, lift.
  destruct (schema args) as [v|e] eqn:Hs.
  - rewrite (parseAndTakeToken_Normal _ _ Hs). exists v.
    split; [done|]. split; [done|].
    split; [apply deleteAccessToken_gone|].
    split; [apply deleteAccessToken_frame|]. done.
  - by rewrite (parseAndTakeToken_Throw _ _ Hs).
Qed.

(** What a run of a handler does with the token: every API call it adds has
    a parameter object without [accessToken]; a failed validation changes
    nothing; otherwise the token goes to [getClient] and the calls added are
    [calls client validArgs], none when no client was obtained. *)
Definition tokenKeptFromApi (run : M CallToolResult) (args : gmap string value)
    (calls : ref → gmap string value → list ApiRequest) (w : World) : Prop :=
  let w' := (run w).2 in
  Forall (λ req, params req !! "accessToken" = None) (newCalls w w') ∧
  match schema args with
  | Throw _ => w' = w
  | Normal validArgs =>
    let token := toString (prop validArgs "accessToken") in
    store w' = (getClient env token (store w)).2 ∧
    match (getClient env token (store w)).1 with
    | Throw _ => newCalls w w' = []
    | Normal client => newCalls w w' = calls client validArgs
    end
  end.

Lemma newCalls_same w : newCalls w w = [].
Proof. unfold newCalls. by rewrite drop_all. Qed.

Lemma newCalls_store w σ : newCalls w {| store := σ; apiLog := apiLog w |} = [].
Proof. unfold newCalls. simpl. by rewrite drop_all. Qed.

Lemma newCalls_one w σ req :
  newCalls w {| store := σ; apiLog := apiLog w ++ [req] |} = [req].
Proof. unfold newCalls. simpl. by rewrite drop_app_length. Qed.

(** The start every handler shares: validation, then the client for the
    token. The two failing branches add no call; the branch left is the one
    in which validation gave [v] and the manager gave [client] in store [σ]. *)
Ltac runTool_prologue v client σ :=
  unfold tokenKeptFromApi, bind, lift, clientManager_getClient, parseAndTakeToken;
  destruct (schema _) as [v|?]; simpl; [|by rewrite newCalls_same];
  match goal with
  | |- context [getClient ?env ?t ?st] =>
    destruct (getClient env t st) as [[client|?] σ]; simpl;
    [|by rewrite newCalls_store]
  end.

Lemma deleteEvent_params_no_token (v : gmap string value) :
  ({[ "calendarId" := prop (deleteAccessToken v) "calendarId";
      "eventId" := prop (deleteAccessToken v) "eventId" ]} : gmap string value)
    !! "accessToken" = None.
Proof. rewrite lookup_insert_ne by done. by rewrite lookup_singleton_ne. Qed.

Lemma DeleteEventHandler_token args w :
  tokenKeptFromApi (DeleteEventHandler.runTool schema env api args) args
    (λ client validArgs,
       [ {| auth := client; endpoint := "events.delete";
            params := {[ "calendarId" := prop validArgs "calendarId";
                         "eventId" := prop validArgs "eventId" ]} |} ]) w.
Proof.
  unfold DeleteEventHandler.runTool. runTool_prologue v client σ.
  rewrite deleteEvent_run. simpl.
  destruct (api _ _); simpl; rewrite newCalls_one;
    (split; [repeat constructor; apply deleteEvent_params_no_token|]);
    (split; [done|]); by rewrite !prop_deleteAccessToken.
Qed.

Lemma ListColorsHandler_token args w :
  tokenKeptFromApi (ListColorsHandler.runTool schema env api args) args
    (λ client _, [ {| auth := client; endpoint := "colors.get"; params := ∅ |} ]) w.
Proof.
  unfold ListColorsHandler.runTool. runTool_prologue v client σ.
  destruct (listColors_run api client {| store := σ; apiLog := apiLog w |})
    as (c & -> & _).
  destruct c; simpl; rewrite newCalls_one; by repeat constructor.
Qed.

Lemma ListCalendarsHandler_token args w :
  tokenKeptFromApi (ListCalendarsHandler.runTool schema env api args) args
    (λ client _, [ {| auth := client; endpoint := "calendarList.list"; params := ∅ |} ]) w.
Proof.
  unfold ListCalendarsHandler.runTool. runTool_prologue v client σ.
  destruct (listCalendars_run api client {| store := σ; apiLog := apiLog w |})
    as (c & -> & _).
  destruct c; simpl; rewrite newCalls_one; by repeat constructor.
Qed.

End AccessTokenFacts.


(** ** Worked runs *)

(** A configured process, a schema that accepts its input as it is, an API
    that answers every call with the token-refresh failure, and the
    arguments of a delete-event call. *)
Definition configuredEnv : Env :=
  {| GOOGLE_CLIENT_ID := Some "client-id";
     GOOGLE_CLIENT_SECRET := Some "client-secret";
     GOOGLE_REDIRECT_URIS := None |}.

Definition acceptingSchema : Schema := λ args, Normal args.

Definition invalidGrantApi : Api :=
  λ _ _, Throw (GaxiosErrorObj "invalid_grant" (DataErrorString "invalid_grant")).

Definition deleteArgs : gmap string value :=
  {[ "accessToken" := VString "ya29.token";
     "calendarId" := VString "primary";
     "eventId" := VString "event1" ]}.

Definition freshWorld : World := {| store := newClientManager; apiLog := [] |}.

(** Two tokens on one manager: one client each, found again on later calls. *)
Example getClient_two_tokens :
  (getClient configuredEnv "tokenA"
     (getClients configuredEnv ["tokenA"; "tokenB"; "tokenA"] newClientManager)).1
    = Normal (ClientRef 0) ∧
  (getClient configuredEnv "tokenB"
     (getClients configuredEnv ["tokenA"; "tokenB"; "tokenA"] newClientManager)).1
    = Normal (ClientRef 1) ∧
  map credentials
      (heap (getClients configuredEnv ["tokenA"; "tokenB"; "tokenA"] newClientManager))
    = [ Some "tokenA"; Some "tokenB" ].
Proof. vm_compute. repeat split. Qed.

(** A delete-event call whose API call fails with [invalid_grant], through
    the server's handler: the result is the text with the re-authentication
    instruction, one API call was made, and its parameters are the calendar
    and event ids without the token. *)
Example delete_event_with_invalid_grant :
  (callToolRequestHandler
     (DeleteEventHandler.runTool acceptingSchema configuredEnv invalidGrantApi)
     deleteArgs freshWorld).1
    = Normal {| content := [ {| type := "text";
                                text := "Error: " +:+ authErrorMessage |} ] |} ∧
  map (λ req, (endpoint req, params req !! "accessToken",
               params req !! "calendarId", params req !! "eventId"))
      (apiLog (callToolRequestHandler
                 (DeleteEventHandler.runTool acceptingSchema configuredEnv invalidGrantApi)
                 deleteArgs freshWorld).2)
    = [ ("events.delete", None, Some (VString "primary"), Some (VString "event1")) ].
Proof. vm_compute. split; reflexivity. Qed.

(** The answer of the Calendar API to a call whose access token is invalid
    or has expired: status 401 with the error object
    [{ code: 401, message: "Invalid Credentials" }], which gaxios throws as
    a [GaxiosError] with that message. *)
Definition invalidCredentials : thrown :=
  GaxiosErrorObj "Invalid Credentials" (DataErrorObject 401 "Invalid Credentials").

Definition invalidCredentialsApi : Api := λ _ _, Throw invalidCredentials.


(** ** Processing the sub-responses of a batch *)

Section MergeFacts.

(** The items of a sub-response that counts as a success: status 200 and a
    body with an [items] list. *)
Definition successItems (r : SubResponse) : option (list ExtendedEvent) :=
  if (statusCode r =? 200)%Z then items (body r) else None.

(** What one position contributes to each list. *)
Definition eventsAt (cid : option string) (r : SubResponse) : list ExtendedEvent :=
  match successItems r with
  | Some its => map (withCalendarId cid) its
  | None => []
  end.

Definition errorsAt (cid : option string) (r : SubResponse) : list CalendarError :=
  match successItems r with
  | Some _ => []
  | None => [ {| err_calendarId := cid; err_error := body r |} ]
  end.

(** The same with the success test the specification words: any status from
    200 to 299. *)
Definition spec_successItems (r : SubResponse) : option (list ExtendedEvent) :=
  if (200 <=? statusCode r)%Z && (statusCode r <=? 299)%Z
  then items (body r) else None.

Definition spec_eventsAt (cid : option string) (r : SubResponse) : list ExtendedEvent :=
  match spec_successItems r with
  | Some its => map (withCalendarId cid) its
  | None => []
  end.

Definition spec_errorsAt (cid : option string) (r : SubResponse) : list CalendarError :=
  match spec_successItems r with
  | Some _ => []
  | None => [ {| err_calendarId := cid; err_error := body r |} ]
  end.

Lemma processResponse_split ids acc index r :
  processResponse ids acc index r =
    {| allEvents := allEvents acc ++ eventsAt (ids !! index) r;
       errors := errors acc ++ errorsAt (ids !! index) r |}.
Proof.
  unfold processResponse, eventsAt, errorsAt, successItems.
  destruct (statusCode r =? 200)%Z; [destruct (items (body r))|]; simpl;
    by rewrite ?app_nil_r.
Qed.

(** The contributions of the positions from [index] on, in order. *)
Fixpoint eventsFrom (ids : list string) (index : nat) (rs : list SubResponse)
  : list ExtendedEvent :=
  match rs with
  | [] => []
  | r :: rest => eventsAt (ids !! index) r ++ eventsFrom ids (S index) rest
  end.

Fixpoint errorsFrom (ids : list string) (index : nat) (rs : list SubResponse)
  : list CalendarError :=
  match rs with
  | [] => []
  | r :: rest => errorsAt (ids !! index) r ++ errorsFrom ids (S index) rest
  end.

Lemma forEachFrom_processResponse ids rs : ∀ index acc,
  forEachFrom (processResponse ids) index rs acc =
    {| allEvents := allEvents acc ++ eventsFrom ids index rs;
       errors := errors acc ++ errorsFrom ids index rs |}.
Proof.
  induction rs as [|r rest IH]; intros index acc; simpl.
  - rewrite !app_nil_r. by destruct acc.
  - rewrite IH, processResponse_split. simpl. by rewrite <- !app_assoc.
Qed.

Lemma eventsFrom_zip ids rs : ∀ index,
  length (drop index ids) = length rs →
  eventsFrom ids index rs =
    concat (zip_with (λ cid r, eventsAt (Some cid) r) (drop index ids) rs).
Proof.
  induction rs as [|r rest IH]; intros index Hlen; simpl.
  - by destruct (drop index ids).
  - destruct (drop index ids) as [|cid tl] eqn:Hd; [done|].
    assert (ids !! index = Some cid) as ->.
    { rewrite <- (Nat.add_0_r index), <- lookup_drop. by rewrite Hd. }
    assert (drop (S index) ids = tl) as Htl.
    { replace (S index) with (index + 1) by lia. rewrite <- drop_drop. by rewrite Hd. }
    simpl. rewrite IH; rewrite Htl; [done|]. simpl in Hlen. lia.
Qed.

Lemma errorsFrom_zip ids rs : ∀ index,
  length (drop index ids) = length rs →
  errorsFrom ids index rs =
    concat (zip_with (λ cid r, errorsAt (Some cid) r) (drop index ids) rs).
Proof.
  induction rs as [|r rest IH]; intros index Hlen; simpl.
  - by destruct (drop index ids).
  - destruct (drop index ids) as [|cid tl] eqn:Hd; [done|].
    assert (ids !! index = Some cid) as ->.
    { rewrite <- (Nat.add_0_r index), <- lookup_drop. by rewrite Hd. }
    assert (drop (S index) ids = tl) as Htl.
    { replace (S index) with (index + 1) by lia. rewrite <- drop_drop. by rewrite Hd. }
    simpl. rewrite IH; rewrite Htl; [done|]. simpl in Hlen. lia.
Qed.

(** The events of a position are among those of the positions from any
    earlier index on. *)
Lemma eventsFrom_contains ids rs : ∀ index i r ev,
  rs !! i = Some r → ev ∈ eventsAt (ids !! (index + i)) r →
  ev ∈ eventsFrom ids index rs.
Proof.
  induction rs as [|r0 rest IH]; intros index i r ev Hr Hev; [done|].
  simpl. apply elem_of_app. destruct i as [|i]; simpl in Hr.
  - injection Hr as ->. left. by rewrite Nat.add_0_r in Hev.
  - right. apply (IH (S index) i r); [done|].
    by replace (S index + i) with (index + S i) by lia.
Qed.

End MergeFacts.

(** The loop against the position-wise reading, over equal-length inputs. *)
Lemma processBatchResponses_zip
    (calendarIds : list string) (subResponses : list SubResponse) :
  length calendarIds = length subResponses →
  processBatchResponses calendarIds subResponses =
    {| allEvents :=
         concat (zip_with (λ cid r, eventsAt (Some cid) r) calendarIds subResponses);
       errors :=
         concat (zip_with (λ cid r, errorsAt (Some cid) r) calendarIds subResponses) |}.
Proof.
  intros Hlen. unfold processBatchResponses.
  rewrite forEachFrom_processResponse. simpl.
  by rewrite (eventsFrom_zip calendarIds subResponses 0),
             (errorsFrom_zip calendarIds subResponses 0).
Qed.

(** The three sub-responses and calendars of the partial-failure test. *)
Definition successEvent : ExtendedEvent :=
  {| id := "event1"; summary := "Success Event";
     start := Some {| date := None; dateTime := Some "2024-01-15T09:00:00Z" |};
     end_ := Some {| date := None; dateTime := Some "2024-01-15T10:00:00Z" |};
     location := None; calendarId := None |}.

Definition partialFailureResponses : list SubResponse :=
  [ {| statusCode := 200; headers := [];
       body := {| items := Some [successEvent]; error := None |} |};
    {| statusCode := 404; headers := [];
       body := {| items := None;
                  error := Some {| code := 404; message := "Calendar not found" |} |} |};
    {| statusCode := 403; headers := [];
       body := {| items := None;
                  error := Some {| code := 403; message := "Access denied" |} |} |} ].

Definition partialFailureCalendars : list string :=
  [ "primary"; "nonexistent@example.com"; "noaccess@example.com" ].

(** A sub-response with status 201 that carries one event. *)
Definition createdResponse : SubResponse :=
  {| statusCode := 201; headers := [];
     body := {| items := Some [successEvent]; error := None |} |}.

(** C1, as the code has it: over equal-length inputs the event list is the
    concatenation, in input order, of the tagged items of the positions
    whose status is 200 and whose body has an items list; the error list
    holds one entry, calendar id and body, for each other position, in input
    order; and the tagged items of a successful position are in the event
    list whatever the other positions hold. *)
Theorem processBatchResponses_by_position
    (calendarIds : list string) (subResponses : list SubResponse) :
  length calendarIds = length subResponses →
  allEvents (processBatchResponses calendarIds subResponses)
    = concat (zip_with (λ cid r, eventsAt (Some cid) r) calendarIds subResponses) ∧
  errors (processBatchResponses calendarIds subResponses)
    = concat (zip_with (λ cid r, errorsAt (Some cid) r) calendarIds subResponses) ∧
  (∀ cid r,
     eventsAt (Some cid) r =
       (if (statusCode r =? 200)%Z
        then match items (body r) with
             | Some its => map (withCalendarId (Some cid)) its
             | None => []
             end
        else []) ∧
     errorsAt (Some cid) r =
       (if (statusCode r =? 200)%Z
        then match items (body r) with
             | Some _ => []
             | None => [ {| err_calendarId := Some cid; err_error := body r |} ]
             end
        else [ {| err_calendarId := Some cid; err_error := body r |} ])) ∧
  (∀ i cid r its ev,
     calendarIds !! i = Some cid → subResponses !! i = Some r →
     statusCode r = 200%Z → items (body r) = Some its → ev ∈ its →
     withCalendarId (Some cid) ev
       ∈ allEvents (processBatchResponses calendarIds subResponses)).
Proof.
  intros Hlen.
  split; [by rewrite processBatchResponses_zip|].
  split; [by rewrite processBatchResponses_zip|].
  split.
  - intros cid r. unfold eventsAt, errorsAt, successItems.
    by destruct (statusCode r =? 200)%Z, (items (body r)).
  - intros i cid r its ev Hc Hr Hs Hi Hev.
    unfold processBatchResponses. rewrite forEachFrom_processResponse. simpl.
    apply (eventsFrom_contains calendarIds subResponses 0 i r); [done|].
    simpl. rewrite Hc. unfold eventsAt, successItems. rewrite Hs, Hi. simpl.
    apply list_elem_of_fmap. eauto.
Qed.

(** The partial-failure test, run through the theorem: one event, from the
    first calendar, and the two failing calendars in the error list. *)
Lemma processBatchResponses_by_position_witness :
  length partialFailureCalendars = length partialFailureResponses ∧
  allEvents (processBatchResponses partialFailureCalendars partialFailureResponses)
    = [ withCalendarId (Some "primary") successEvent ] ∧
  map err_calendarId
      (errors (processBatchResponses partialFailureCalendars partialFailureResponses))
    = [ Some "nonexistent@example.com"; Some "noaccess@example.com" ].
Proof.
  split; [reflexivity|].
  destruct (processBatchResponses_by_position
              partialFailureCalendars partialFailureResponses eq_refl)
    as (Hev & Herr & _).
  rewrite Hev, Herr. split; reflexivity.
Defined.

(** C1 as worded fails on a success status other than 200: a 201 response
    with an items list goes to the error list and contributes no event. *)
Lemma processBatchResponses_201_counterexample :
  length ["primary"] = length [createdResponse] ∧
  spec_eventsAt (Some "primary") createdResponse
    = [ withCalendarId (Some "primary") successEvent ] ∧
  spec_errorsAt (Some "primary") createdResponse = [] ∧
  allEvents (processBatchResponses ["primary"] [createdResponse]) = [] ∧
  errors (processBatchResponses ["primary"] [createdResponse])
    = [ {| err_calendarId := Some "primary"; err_error := body createdResponse |} ] ∧
  allEvents (processBatchResponses ["primary"] [createdResponse])
    ≠ concat (zip_with (λ cid r, spec_eventsAt (Some cid) r)
                       ["primary"] [createdResponse]).
Proof. repeat split; try reflexivity. discriminate. Qed.

(** The scenario of the specification: three calendars, the second answered
    with a 404, the other two with events. *)
Lemma processBatchResponses_middle_404
    (c1 c2 c3 : string) (r1 r2 r3 : SubResponse) (its1 its3 : list ExtendedEvent) :
  statusCode r1 = 200%Z → items (body r1) = Some its1 →
  statusCode r2 = 404%Z →
  statusCode r3 = 200%Z → items (body r3) = Some its3 →
  allEvents (processBatchResponses [c1; c2; c3] [r1; r2; r3])
    = map (withCalendarId (Some c1)) its1 ++ map (withCalendarId (Some c3)) its3 ∧
  errors (processBatchResponses [c1; c2; c3] [r1; r2; r3])
    = [ {| err_calendarId := Some c2; err_error := body r2 |} ].
Proof.
  intros H1 I1 H2 H3 I3.
  rewrite (processBatchResponses_zip [c1; c2; c3] [r1; r2; r3] eq_refl).
  simpl. unfold eventsAt, errorsAt, successItems.
  rewrite H1, I1, H2, H3, I3. simpl. by rewrite app_nil_r.
Qed.

(** ** The start-time sort *)

Section InsertionSortFacts.

Context {A : Type} (compareFn : A → A → comparison).

(** The comparator is consistent: swapping the arguments flips the sign, and
    not-greater is transitive. *)
Hypothesis compareFn_antisym : ∀ a b, compareFn a b = CompOpp (compareFn b a).
Hypothesis compareFn_trans :
  ∀ a b c, compareFn a b ≠ Gt → compareFn b c ≠ Gt → compareFn a c ≠ Gt.

Definition notGreater (a b : A) : Prop := compareFn a b ≠ Gt.

Definition tied (a b : A) : bool :=
  match compareFn a b with
  | Eq => true
  | _ => false
  end.

Lemma insertSorted_Permutation x l : Permutation (insertSorted compareFn x l) (x :: l).
Proof.
  induction l as [|y l IH]; simpl; [done|].
  destruct (compareFn x y); try done.
  rewrite IH. apply perm_swap.
Qed.

Lemma sort_Permutation l : Permutation (sort compareFn l) l.
Proof.
  induction l as [|x l IH]; simpl; [done|].
  rewrite insertSorted_Permutation. by constructor.
Qed.

Lemma Gt_flip a b : compareFn a b = Gt → notGreater b a.
Proof.
  intros H. unfold notGreater. rewrite compareFn_antisym, H. discriminate.
Qed.

Lemma insertSorted_StronglySorted x l :
  StronglySorted notGreater l → StronglySorted notGreater (insertSorted compareFn x l).
Proof.
  induction 1 as [|y l Hs IH Hy]; simpl.
  { repeat constructor. }
  destruct (compareFn x y) eqn:Hxy.
  - constructor; [by constructor|]. constructor.
    + unfold notGreater. by rewrite Hxy.
    + eapply Forall_impl; [exact Hy|]. intros z Hz.
      apply (compareFn_trans x y z); [by rewrite Hxy|done].
  - constructor; [by constructor|]. constructor.
    + unfold notGreater. by rewrite Hxy.
    + eapply Forall_impl; [exact Hy|]. intros z Hz.
      apply (compareFn_trans x y z); [by rewrite Hxy|done].
  - constructor; [done|].
    rewrite insertSorted_Permutation.
    constructor; [by apply Gt_flip|done].
Qed.

Lemma sort_StronglySorted l : StronglySorted notGreater (sort compareFn l).
Proof.
  induction l as [|x l IH]; simpl; [constructor|].
  by apply insertSorted_StronglySorted.
Qed.

(** Elements tied with [e] are not stepped over by an element tied with [e]:
    the insertion keeps their relative order. *)
Lemma tied_not_Gt x y e :
  tied x e = true → tied y e = true → compareFn x y ≠ Gt.
Proof.
  unfold tied. intros Hx Hy.
  destruct (compareFn x e) eqn:Hxe; try done.
  destruct (compareFn y e) eqn:Hye; try done.
  apply (compareFn_trans x e y); [by rewrite Hxe|].
  rewrite compareFn_antisym, Hye. discriminate.
Qed.

Lemma filter_tied_insertSorted e x l :
  List.filter (λ z, tied z e) (insertSorted compareFn x l)
    = List.filter (λ z, tied z e) (x :: l).
Proof.
  induction l as [|y l IH]; [done|].
  simpl. destruct (compareFn x y) eqn:Hxy; try done.
  simpl. rewrite IH. simpl.
  destruct (tied x e) eqn:Hx, (tied y e) eqn:Hy; try done.
  by destruct (tied_not_Gt x y e Hx Hy).
Qed.

Lemma filter_tied_sort e l :
  List.filter (λ z, tied z e) (sort compareFn l) = List.filter (λ z, tied z e) l.
Proof.
  induction l as [|x l IH]; [done|].
  simpl sort. rewrite filter_tied_insertSorted. simpl. by rewrite IH.
Qed.

(** In a strongly sorted list an earlier position is related to a later. *)
Lemma StronglySorted_lookup (R : A → A → Prop) l : ∀ i j x y,
  StronglySorted R l → l !! i = Some x → l !! j = Some y → i < j → R x y.
Proof.
  induction l as [|z l IH]; intros i j x y Hs Hi Hj Hlt; [done|].
  apply StronglySorted_inv in Hs as [Hs Hz].
  destruct j as [|j]; [lia|]. simpl in Hj. destruct i as [|i]; simpl in Hi.
  - injection Hi as ->. rewrite Forall_forall in Hz. apply Hz.
    apply list_elem_of_lookup. eauto.
  - apply (IH i j); [done..|lia].
Qed.

End InsertionSortFacts.

(** The sort key, case by case: the [dateTime] when it is a non-empty
    string, else the [date], else the empty string. *)
Lemma startKey_cases (e : ExtendedEvent) :
  startKey e =
    match start e with
    | None => ""
    | Some s =>
      match dateTime s with
      | Some dt => if String.eqb dt "" then default "" (date s) else dt
      | None => default "" (date s)
      end
    end.
Proof.
  unfold startKey. destruct (start e) as [[d dt]|]; simpl; [|done].
  destruct dt as [dt|]; simpl.
  - destruct (String.eqb_spec dt ""); simpl; [|done].
    destruct d as [d|]; simpl; [|done]. by destruct (String.eqb_spec d "") as [->|].
  - destruct d as [d|]; simpl; [|done]. by destruct (String.eqb_spec d "") as [->|].
Qed.

(** Code-unit lexicographic comparison is a consistent comparator. *)
Lemma lexCompare_antisym a b : lexCompare a b = CompOpp (lexCompare b a).
Proof. apply String.compare_antisym. Qed.

Lemma lexCompare_le a b : lexCompare a b ≠ Gt ↔ String.le a b.
Proof.
  unfold String.le, String.leb, lexCompare.
  destruct (String.compare a b); simpl; split; try done.
Qed.

Lemma lexCompare_trans a b c :
  lexCompare a b ≠ Gt → lexCompare b c ≠ Gt → lexCompare a c ≠ Gt.
Proof. rewrite !lexCompare_le. apply (transitivity (R := String.le)). Qed.

Section StartTimeSort.

Variable localeCompare : string → string → comparison.

(** What the sort needs of the host's comparison: that it is a consistent
    comparator. Nothing is assumed about which strings it ranks first. *)
Hypothesis localeCompare_antisym :
  ∀ a b, localeCompare a b = CompOpp (localeCompare b a).
Hypothesis localeCompare_trans :
  ∀ a b c, localeCompare a b ≠ Gt → localeCompare b c ≠ Gt → localeCompare a c ≠ Gt.

(** The comparator handed to [sort]. *)
Definition compareStart (a b : ExtendedEvent) : comparison :=
  localeCompare (startKey a) (startKey b).

Lemma compareStart_antisym a b : compareStart a b = CompOpp (compareStart b a).
Proof. apply localeCompare_antisym. Qed.

Lemma compareStart_trans a b c :
  compareStart a b ≠ Gt → compareStart b c ≠ Gt → compareStart a c ≠ Gt.
Proof. apply localeCompare_trans. Qed.

Lemma localeCompare_refl s : localeCompare s s = Eq.
Proof.
  pose proof (localeCompare_antisym s s) as H.
  by destruct (localeCompare s s).
Qed.

(** An event whose key the comparison ranks strictly first stands first. *)
Lemma sortEvents_Lt_first events a b i j :
  compareStart a b = Lt →
  sortEvents localeCompare events !! i = Some a →
  sortEvents localeCompare events !! j = Some b →
  i < j.
Proof.
  intros Hlt Hi Hj.
  destruct (Nat.lt_trichotomy i j) as [?|[->|Hji]]; [done|..].
  - rewrite Hi in Hj. injection Hj as ->.
    unfold compareStart in Hlt. by rewrite localeCompare_refl in Hlt.
  - pose proof (StronglySorted_lookup (notGreater compareStart) _ j i b a
                  (sort_StronglySorted compareStart compareStart_antisym
                     compareStart_trans events) Hj Hi Hji) as Hba.
    unfold notGreater in Hba. rewrite compareStart_antisym, Hlt in Hba. by destruct Hba.
Qed.

(** The keys of an all-day event and of a timed one. *)
Lemma startKey_dateOnly a d :
  start a = Some {| date := Some d; dateTime := None |} → startKey a = d.
Proof.
  intros Ha. rewrite startKey_cases, Ha. done.
Qed.

Lemma startKey_timed b dt :
  start b ≫= dateTime = Some dt → dt ≠ "" → startKey b = dt.
Proof.
  intros Hb Hne. rewrite startKey_cases.
  destruct (start b) as [[db dtb]|]; simpl in Hb; [|done]. subst dtb. simpl.
  by destruct (String.eqb_spec dt "").
Qed.

(** Two events whose keys tie are left as they came. *)
Lemma sortEvents_tie_kept a b :
  compareStart a b = Eq → sortEvents localeCompare [b; a] = [b; a].
Proof.
  intros H. unfold sortEvents. simpl. fold (compareStart b a).
  by rewrite compareStart_antisym, H.
Qed.


End StartTimeSort.

(** The two events of the date-only sorting test, the timed one first. *)
Definition allDayEvent : ExtendedEvent :=
  {| id := "all-day"; summary := "All Day Event";
     start := Some {| date := Some "2024-01-15"; dateTime := None |};
     end_ := Some {| date := Some "2024-01-16"; dateTime := None |};
     location := None; calendarId := None |}.

Definition timedEvent : ExtendedEvent :=
  {| id := "timed"; summary := "Timed Event";
     start := Some {| date := None; dateTime := Some "2024-01-15T09:00:00Z" |};
     end_ := Some {| date := None; dateTime := Some "2024-01-15T10:00:00Z" |};
     location := None; calendarId := None |}.


(** The two sorting tests, evaluated at that comparator. *)
Example sortEvents_date_only_first :
  map id (sortEvents lexCompare [timedEvent; allDayEvent]) = ["all-day"; "timed"] ∧
  map id (sortEvents lexCompare [allDayEvent; timedEvent]) = ["all-day"; "timed"].
Proof. split; reflexivity. Qed.

(** [nulIgnoringCompare] is a consistent comparator. *)
Lemma nulIgnoringCompare_antisym a b :
  nulIgnoringCompare a b = CompOpp (nulIgnoringCompare b a).
Proof. apply lexCompare_antisym. Qed.

Lemma nulIgnoringCompare_trans a b c :
  nulIgnoringCompare a b ≠ Gt → nulIgnoringCompare b c ≠ Gt →
  nulIgnoringCompare a c ≠ Gt.
Proof. apply lexCompare_trans. Qed.

(** A timed event whose [dateTime] is the day followed by U+0000. *)
Definition timedNulEvent : ExtendedEvent :=
  {| id := "timed"; summary := "Timed Event";
     start := Some {| date := None;
                      dateTime := Some ("2024-01-15" +:+ String "000" "") |};
     end_ := None; location := None; calendarId := None |}.


(** ** The batch request body *)

Section RequestBodyFacts.

Variables (bdry : string) (options : Options).

(** The query string of a request, written out: the code gives
    [URLSearchParams] a [timeMax] entry whatever [options] holds. *)
Definition expectedQuery : string :=
  "singleEvents=true&orderBy=startTime&timeMin=" +:+ formEncode (timeMin options) +:+
  "&timeMax=" +:+ formEncode (default "undefined" (timeMax options)).

(** The part for calendar [cid] at 0-based position [i], written out. *)
Definition expectedPart (i : nat) (cid : string) : string :=
  "--" +:+ bdry +:+ CRLF +:+
  "Content-Type: application/http" +:+ CRLF +:+
  "Content-ID: <item" +:+ pretty (i + 1) +:+ ">" +:+ CRLF +:+
  CRLF +:+
  "GET " +:+ "/calendar/v3/calendars/" +:+ encodeURIComponent cid +:+ "/events?" +:+
  expectedQuery +:+ " HTTP/1.1".

Lemma append_assoc (a b c : string) : (a +:+ b) +:+ c = a +:+ (b +:+ c).
Proof. induction a as [|x a IH]; simpl; [done|]. unfold String.app in *. simpl. by rewrite IH. Qed.

Lemma URLSearchParams_toString_searchParams :
  URLSearchParams_toString (searchParams options) = expectedQuery.
Proof.
  unfold URLSearchParams_toString, searchParams, expectedQuery. simpl.
  rewrite !append_assoc. reflexivity.
Qed.

Lemma createPart_request i cid :
  createPart bdry i {| method := "GET"; path := requestPath options cid |}
    = expectedPart i cid.
Proof.
  unfold createPart, expectedPart, requestPath.
  rewrite URLSearchParams_toString_searchParams. simpl.
  rewrite !append_assoc. reflexivity.
Qed.

(** The body is its parts, one per calendar id, in order. *)
Lemma build_parts (calendarIds : list string) :
  ∃ parts,
    build bdry calendarIds options
      = join (CRLF +:+ CRLF) parts +:+ CRLF +:+ "--" +:+ bdry +:+ "--" ∧
    length parts = length calendarIds ∧
    (∀ i cid, calendarIds !! i = Some cid → parts !! i = Some (expectedPart i cid)).
Proof.
  exists (imap (createPart bdry) (createRequests calendarIds options)).
  split; [reflexivity|]. split.
  { unfold createRequests. by rewrite length_imap, length_map. }
  intros i cid Hi. unfold createRequests.
  rewrite list_lookup_imap, list_lookup_fmap, Hi. simpl.
  by rewrite createPart_request.
Qed.

End RequestBodyFacts.


(** The options of the batch-requests test, and those of the
    optional-parameters test and of the specification's scenario. *)
Definition testOptions : Options :=
  {| timeMin := "2024-01-01T00:00:00Z"; timeMax := Some "2024-01-31T23:59:59Z" |}.

Definition scenarioOptions : Options :=
  {| timeMin := "2024-01-01T00:00:00Z"; timeMax := None |}.



(** The paths of the two request tests, and the body of the body test,
    evaluated. *)
Example createRequests_test :
  map path (createRequests ["primary"; "work@example.com"; "personal@example.com"]
              testOptions) =
  [ "/calendar/v3/calendars/primary/events?singleEvents=true&orderBy=startTime&timeMin=2024-01-01T00%3A00%3A00Z&timeMax=2024-01-31T23%3A59%3A59Z";
    "/calendar/v3/calendars/work%40example.com/events?singleEvents=true&orderBy=startTime&timeMin=2024-01-01T00%3A00%3A00Z&timeMax=2024-01-31T23%3A59%3A59Z";
    "/calendar/v3/calendars/personal%40example.com/events?singleEvents=true&orderBy=startTime&timeMin=2024-01-01T00%3A00%3A00Z&timeMax=2024-01-31T23%3A59%3A59Z" ].
Proof. vm_compute. reflexivity. Qed.

Example primaryPathWithoutTimeMax_test :
  primaryPathWithoutTimeMax scenarioOptions =
    "/calendar/v3/calendars/primary/events?singleEvents=true&orderBy=startTime&timeMin=2024-01-01T00%3A00%3A00Z" ∧
  includes "timeMax" (primaryPathWithoutTimeMax scenarioOptions) = false.
Proof. vm_compute. split; reflexivity. Qed.

Example createBatchBody_test :
  createBatchBody "batch_boundary_test"
    [ {| method := "GET";
         path := "/calendar/v3/calendars/primary/events?singleEvents=true&orderBy=startTime" |};
      {| method := "GET";
         path := "/calendar/v3/calendars/work%40example.com/events?singleEvents=true&orderBy=startTime" |} ]
  = "--batch_boundary_test" +:+ CRLF +:+
    "Content-Type: application/http" +:+ CRLF +:+
    "Content-ID: <item1>" +:+ CRLF +:+ CRLF +:+
    "GET /calendar/v3/calendars/primary/events?singleEvents=true&orderBy=startTime HTTP/1.1" +:+
    CRLF +:+ CRLF +:+
    "--batch_boundary_test" +:+ CRLF +:+
    "Content-Type: application/http" +:+ CRLF +:+
    "Content-ID: <item2>" +:+ CRLF +:+ CRLF +:+
    "GET /calendar/v3/calendars/work%40example.com/events?singleEvents=true&orderBy=startTime HTTP/1.1" +:+
    CRLF +:+ "--batch_boundary_test--".
Proof. vm_compute. reflexivity. Qed.

(** ** The list-events paths *)

Section ListEventsFacts.

Variable C : Collaborators.

(** The one request of the batch path. *)
Definition batchPost (calendarIds : list string) (options : Options) (token : string)
  : HttpRequest :=
  {| http_method := "POST";
     http_url := batchEndpoint C;
     http_contentType := "multipart/mixed; boundary=" +:+ boundary C;
     http_authorization := "Bearer " +:+ token;
     http_body := builderBody (boundary C) calendarIds options |}.

(** The one call of the direct path. *)
Definition directCall (calendarId : string) (options : Options) : ListParams :=
  {| lp_calendarId := calendarId;
     lp_timeMin := timeMin options;
     lp_timeMax := timeMax options;
     lp_singleEvents := true;
     lp_orderBy := "startTime" |}.

Lemma buildEnvelope_in_bounds calendarIds options :
  (1 ≤ length calendarIds ≤ 50)%nat →
  buildEnvelope C calendarIds options
    = inr (builderBody (boundary C) calendarIds options).
Proof.
  intros [H1 H2]. unfold buildEnvelope.
  destruct (Nat.leb_spec 1 (length calendarIds)); [|lia].
  destruct (Nat.leb_spec (length calendarIds) 50); [done|lia].
Qed.

Lemma batchListEvents_effects calendarIds options client fx :
  (1 ≤ length calendarIds ≤ 50)%nat →
  let fx' := (batchListEvents C calendarIds options client fx).2 in
  directCalls fx' = directCalls fx ∧
  match getAccessToken client with
  | Some token =>
    networkCalls fx' = networkCalls fx ++ [batchPost calendarIds options token]
  | None =>
    batchListEvents C calendarIds options client fx = (inl AuthenticationError, fx)
  end.
Proof.
  intros Hlen. simpl. unfold batchListEvents.
  rewrite (buildEnvelope_in_bounds _ _ Hlen). unfold execute.
  destruct (getAccessToken client) as [token|]; [|done].
  destruct (fetch C _ _) as [raw|]; [|done].
  destruct (parseBatchResponse C raw) as [subs|]; [|done].
  by destruct (merge C calendarIds subs).
Qed.

Lemma listEvents_many calendarIds options client fx :
  (2 ≤ length calendarIds)%nat →
  listEvents C (IdArray calendarIds) options client fx
    = batchListEvents C calendarIds options client fx.
Proof.
  intros Hlen. unfold listEvents. simpl.
  destruct calendarIds as [|a [|b rest]]; simpl in Hlen; try lia; done.
Qed.

End ListEventsFacts.






(** ** Validation of the list-events arguments *)


(** The validation tests, with the decoder for arrays of plain strings and
    the date-time shape test. *)
Definition testParse : RawArgs → option ValidArgs :=
  safeParse decodeStringArray isoDateTimeShape.

Definition manyCalendars (n : nat) : list string :=
  map (λ i, "cal" +:+ pretty i +:+ "@example.com") (seq 0 n).

Example safeParse_tests :
  testParse {| raw_calendarId := RawString "primary";
               raw_timeMin := Some "2024-01-01T00:00:00Z";
               raw_timeMax := Some "2024-12-31T23:59:59Z" |}
    = Some {| arg_calendarId := SingleId "primary";
              arg_timeMin := Some "2024-01-01T00:00:00Z";
              arg_timeMax := Some "2024-12-31T23:59:59Z" |} ∧
  arg_calendarId <$>
    testParse {| raw_calendarId :=
                   RawString ("[" +:+ String "034" "primary" +:+ String "034" ", " +:+
                              String "034" "work@example.com" +:+ String "034" "]");
                 raw_timeMin := Some "2024-01-01T00:00:00Z"; raw_timeMax := None |}
    = Some (IdArray ["primary"; "work@example.com"]) ∧
  arg_calendarId <$>
    testParse {| raw_calendarId :=
                   RawString ("[" +:+ String "034" "primary" +:+ String "034" ", " +:+
                              String "034" "work@example.com" +:+ String "034" "");
                 raw_timeMin := Some "2024-01-01T00:00:00Z"; raw_timeMax := None |}
    = Some (SingleId ("[" +:+ String "034" "primary" +:+ String "034" ", " +:+
                      String "034" "work@example.com" +:+ String "034" "")) ∧
  testParse {| raw_calendarId := RawArray [];
               raw_timeMin := Some "2024-01-01T00:00:00Z"; raw_timeMax := None |} = None ∧
  testParse {| raw_calendarId := RawArray (manyCalendars 51);
               raw_timeMin := Some "2024-01-01T00:00:00Z"; raw_timeMax := None |} = None ∧
  arg_calendarId <$>
    testParse {| raw_calendarId := RawArray (manyCalendars 50);
                 raw_timeMin := Some "2024-01-01T00:00:00Z"; raw_timeMax := None |}
    = Some (IdArray (manyCalendars 50)) ∧
  testParse {| raw_calendarId := RawString "primary";
               raw_timeMin := Some "2024-01-01"; raw_timeMax := None |} = None.
Proof. vm_compute. repeat split. Qed.

(* ===================================================================== *)
(** * Part III: further properties of the code                            *)
(* ===================================================================== *)

(** ** The client factory *)

(** The first piece of a split holds no separator, and the string is that
    piece alone or that piece, a separator and the rest. *)
Lemma split_first (sep : ascii) (s : string) :
  ∃ h t, split sep s = h :: t ∧
         Forall (λ c, c ≠ sep) (list_ascii_of_string h) ∧
         ((t = [] ∧ s = h) ∨ (∃ rest, s = h +:+ String sep rest)).
Proof.
  induction s as [|c r (h & t & Hs & Hh & Hr)]; simpl.
  { exists "", []. repeat split; [constructor|by left]. }
  destruct (Ascii.eqb_spec c sep) as [->|Hne].
  - exists "", (split sep r). repeat split; [constructor|]. right. by exists r.
  - rewrite Hs. exists (String c h), t. repeat split.
    + simpl. by constructor.
    + destruct Hr as [[-> ->]|[rest ->]]; [by left|]. right. by exists rest.
Qed.

(** X1: in a process whose client id and secret are set and non-empty the
    factory returns a client with that id and secret and no credentials.
    Its redirect URI is the dummy URI when [GOOGLE_REDIRECT_URIS] is unset;
    when it is set, it is the text before the first comma, which may be
    empty. *)
Theorem initializeOAuth2Client_configured (env : Env) (cid secret : string) :
  GOOGLE_CLIENT_ID env = Some cid → cid ≠ "" →
  GOOGLE_CLIENT_SECRET env = Some secret → secret ≠ "" →
  ∃ client,
    initializeOAuth2Client env = Normal client ∧
    clientId client = cid ∧ clientSecret client = secret ∧
    credentials client = None ∧
    match GOOGLE_REDIRECT_URIS env with
    | None => redirectUri client = dummyRedirectUri
    | Some uris =>
      Forall (λ c, c ≠ ","%char) (list_ascii_of_string (redirectUri client)) ∧
      (uris = redirectUri client ∨
       ∃ rest, uris = redirectUri client +:+ String "," rest)
    end.
Proof.
  intros Hid Hne Hsec Hne'. unfold initializeOAuth2Client. rewrite Hid, Hsec. simpl.
  destruct (String.eqb_spec cid ""); [done|].
  destruct (String.eqb_spec secret ""); [done|]. simpl.
  eexists. split; [reflexivity|]. simpl. repeat split.
  destruct (GOOGLE_REDIRECT_URIS env) as [uris|]; [|done].
  destruct (split_first "," uris) as (h & t & -> & Hh & Hr). simpl.
  split; [done|]. destruct Hr as [[_ ->]|Hr]; [by left|by right].
Qed.

Lemma initializeOAuth2Client_configured_witness :
  ∃ client,
    initializeOAuth2Client
      {| GOOGLE_CLIENT_ID := Some "client-id";
         GOOGLE_CLIENT_SECRET := Some "client-secret";
         GOOGLE_REDIRECT_URIS := Some "http://a.example/cb,http://b.example/cb" |}
      = Normal client ∧
    redirectUri client = "http://a.example/cb".
Proof.
  destruct (initializeOAuth2Client_configured
              {| GOOGLE_CLIENT_ID := Some "client-id";
                 GOOGLE_CLIENT_SECRET := Some "client-secret";
                 GOOGLE_REDIRECT_URIS := Some "http://a.example/cb,http://b.example/cb" |}
              "client-id" "client-secret" eq_refl ltac:(discriminate)
              eq_refl ltac:(discriminate))
    as (client & Hc & _).
  exists client. split; [exact Hc|].
  vm_compute in Hc. by injection Hc as <-.
Defined.

(** ** The client manager, further *)

Section ClientManagerMore.

Variable env : Env.

(** Asking again right after an answer gives the same answer and changes
    nothing. *)
Lemma getClient_again t σ r σ' :
  getClient env t σ = (Normal r, σ') → getClient env t σ' = (Normal r, σ').
Proof.
  intros H. destruct (getProperty (clients σ) t) as [r0|] eqn:Hp.
  - rewrite (getClient_hit _ _ _ _ Hp) in H. injection H as <- <-.
    by apply getClient_hit.
  - destruct (initializeOAuth2Client env) as [client|e] eqn:Hi.
    2:{ by rewrite (getClient_miss_throw _ _ _ _ Hp Hi) in H. }
    rewrite (getClient_miss _ _ _ _ Hp Hi) in H. injection H as <- <-.
    apply getClient_hit. apply getProperty_own. simpl. apply lookup_insert_eq.
Qed.

(** Every client in the heap is cached under the token it carries, and the
    heap has as many clients as the cache has tokens. *)
Definition storeTight (σ : Store) : Prop :=
  (∀ l c, heap σ !! l = Some c →
     ∃ t, credentials c = Some t ∧ clients σ !! t = Some l) ∧
  length (heap σ) = size (clients σ).

Lemma storeTight_new : storeTight newClientManager.
Proof. split; [by intros l c H|]. simpl. by rewrite map_size_empty. Qed.

Lemma getClient_tight σ t :
  storeOk σ → storeTight σ → storeTight (getClient env t σ).2.
Proof.
  intros Hok [Hheap Hsize].
  destruct (getProperty (clients σ) t) as [r|] eqn:Hp.
  { by rewrite (getClient_hit _ _ _ _ Hp). }
  destruct (initializeOAuth2Client env) as [client|e] eqn:Hi.
  2:{ by rewrite (getClient_miss_throw _ _ _ _ Hp Hi). }
  rewrite (getClient_miss _ _ _ _ Hp Hi). simpl.
  apply getProperty_None in Hp as [Hnone Hkey]. split; simpl.
  - intros l c Hl. destruct (decide (l < length (heap σ))) as [Hlt|Hge].
    + rewrite lookup_app_l in Hl by done.
      destruct (Hheap _ _ Hl) as (t0 & Hc & Ht0). exists t0. split; [done|].
      rewrite lookup_insert_ne; [done|]. intros Heq. rewrite Heq in Hnone.
      assert (Some l = None) as Habs by (rewrite <- Ht0; exact Hnone). done.
    + rewrite lookup_app_r in Hl by lia.
      destruct (l - length (heap σ)) as [|k] eqn:Hk; [|done].
      injection Hl as <-. exists t. split; [done|].
      replace l with (length (heap σ)) by lia. apply lookup_insert_eq.
  - rewrite length_app, map_size_insert_None by done. simpl. lia.
Qed.

Lemma getClients_tight ts : ∀ σ,
  storeOk σ → storeTight σ → storeTight (getClients env ts σ).
Proof.
  induction ts as [|t ts IH]; intros σ Hok Ht; [done|]. simpl.
  apply IH; [by apply getClient_step|by apply getClient_tight].
Qed.

End ClientManagerMore.

(** X2: once [getClient(t)] has returned a reference on a manager, every
    later [getClient(t)] returns that reference and leaves the store as it
    finds it, whatever tokens were asked for in between; and a client the
    reference names is never modified and carries [t]. *)
Theorem getClient_same_reference_later
    (env : Env) (before : list string) (t : string) (between : list string)
    (r : ref) (σ : Store) :
  getClient env t (getClients env before newClientManager) = (Normal r, σ) →
  getClient env t (getClients env between σ)
    = (Normal r, getClients env between σ) ∧
  (∀ l, r = ClientRef l →
     heap (getClients env between σ) !! l = heap σ !! l ∧
     ∃ c, heap σ !! l = Some c ∧ credentials c = Some t).
Proof. intros H. by apply (getClient_memoized env before t between r σ). Qed.

Lemma getClient_same_reference_later_witness :
  getClient configuredEnv "tokenA"
    (getClients configuredEnv ["tokenB"; "tokenC"]
       (getClient configuredEnv "tokenA"
          (getClients configuredEnv ["tokenB"] newClientManager)).2)
  = (Normal (ClientRef 1),
     getClients configuredEnv ["tokenB"; "tokenC"]
       (getClient configuredEnv "tokenA"
          (getClients configuredEnv ["tokenB"] newClientManager)).2).
Proof.
  apply (getClient_same_reference_later configuredEnv ["tokenB"] "tokenA"
           ["tokenB"; "tokenC"] (ClientRef 1)
           (getClient configuredEnv "tokenA"
              (getClients configuredEnv ["tokenB"] newClientManager)).2).
  vm_compute. reflexivity.
Defined.

(** X3: on every store a new manager can reach, two tokens never share a
    client, every client in the heap is cached under the token it carries,
    and the heap holds exactly one client per cached token. *)
Theorem getClient_one_client_per_token (env : Env) (tokens : list string) :
  let σ := getClients env tokens newClientManager in
  (∀ t1 t2 l, clients σ !! t1 = Some l → clients σ !! t2 = Some l → t1 = t2) ∧
  (∀ l c, heap σ !! l = Some c →
     ∃ t, credentials c = Some t ∧ clients σ !! t = Some l) ∧
  length (heap σ) = size (clients σ).
Proof.
  simpl. pose proof (storeOk_reachable env tokens) as Hok.
  destruct (getClients_tight env tokens newClientManager
              storeOk_new storeTight_new) as [Hheap Hsize].
  split; [|done].
  intros t1 t2 l H1 H2.
  destruct (Hok _ _ H1) as (_ & c1 & Hc1 & Hcred1).
  destruct (Hok _ _ H2) as (_ & c2 & Hc2 & Hcred2). congruence.
Qed.

(** X4: where the factory throws, so does [getClient] for every token that
    is neither cached nor a member name of [Object.prototype]: it throws the
    factory's error and caches nothing, so a manager that starts new stays
    new however many calls are made. *)
Theorem getClient_factory_failure_caches_nothing
    (env : Env) (e : thrown) (tokens : list string) (t : string) :
  initializeOAuth2Client env = Throw e →
  t ∉ objectPrototypeKeys →
  getClients env tokens newClientManager = newClientManager ∧
  getClient env t (getClients env tokens newClientManager)
    = (Throw e, newClientManager).
Proof.
  intros Hi Hkey.
  assert (∀ t0, (getClient env t0 newClientManager).2 = newClientManager) as Hone.
  { intros t0. destruct (getProperty (clients newClientManager) t0) as [r|] eqn:Hp.
    - by rewrite (getClient_hit _ _ _ _ Hp).
    - by rewrite (getClient_miss_throw _ _ _ _ Hp Hi). }
  assert (getClients env tokens newClientManager = newClientManager) as Hall.
  { induction tokens as [|t0 ts IH]; [done|]. simpl. by rewrite Hone. }
  split; [done|]. rewrite Hall.
  apply getClient_miss_throw; [|done]. by apply getProperty_None.
Qed.

Lemma getClient_factory_failure_caches_nothing_witness :
  getClient {| GOOGLE_CLIENT_ID := None; GOOGLE_CLIENT_SECRET := Some "s";
               GOOGLE_REDIRECT_URIS := None |} "tokenA"
    (getClients {| GOOGLE_CLIENT_ID := None; GOOGLE_CLIENT_SECRET := Some "s";
                   GOOGLE_REDIRECT_URIS := None |} ["tokenA"; "tokenB"]
       newClientManager)
  = (Throw (ErrorObj "GOOGLE_CLIENT_ID environment variable is required"),
     newClientManager).
Proof.
  apply (getClient_factory_failure_caches_nothing
           {| GOOGLE_CLIENT_ID := None; GOOGLE_CLIENT_SECRET := Some "s";
              GOOGLE_REDIRECT_URIS := None |}
           (ErrorObj "GOOGLE_CLIENT_ID environment variable is required")
           ["tokenA"; "tokenB"] "tokenA"); [reflexivity|].
  apply (bool_decide_eq_false_1 ("tokenA" ∈ objectPrototypeKeys)). reflexivity.
Defined.

(** ** The handlers, further *)

Section HandlersMore.

Variables (env : Env) (api : Api).

(** The request of a delete-event run, from the validated arguments. *)
Definition deleteRequest (client : ref) (validArgs : gmap string value) : ApiRequest :=
  {| auth := client; endpoint := "events.delete";
     params := {[ "calendarId" := prop validArgs "calendarId";
                  "eventId" := prop validArgs "eventId" ]} |}.

(** A delete-event run whose validation and client lookup succeed. *)
Lemma DeleteEventHandler_run (schema : Schema) args w v client σ :
  schema args = Normal v →
  getClient env (toString (prop v "accessToken")) (store w) = (Normal client, σ) →
  DeleteEventHandler.runTool schema env api args w =
    (match api (apiLog w) (deleteRequest client v) with
     | Normal _ =>
       Normal {| content := [ {| type := "text"; text := "Event deleted successfully" |} ] |}
     | Throw e => Throw (handled e)
     end,
     {| store := σ; apiLog := apiLog w ++ [deleteRequest client v] |}).
Proof.
  intros Hs Hg.
  unfold DeleteEventHandler.runTool, bind, lift, clientManager_getClient,
    parseAndTakeToken.
  rewrite Hs, Hg. rewrite deleteEvent_run. simpl.
  unfold deleteRequest. rewrite !prop_deleteAccessToken by done.
  by destruct (api _ _).
Qed.

(** A list-calendars run whose validation and client lookup succeed makes
    its one call with that client. *)
Lemma ListCalendarsHandler_run (schema : Schema) args w v client σ :
  schema args = Normal v →
  getClient env (toString (prop v "accessToken")) (store w) = (Normal client, σ) →
  (ListCalendarsHandler.runTool schema env api args w).2 =
    {| store := σ;
       apiLog := apiLog w ++
                 [ {| auth := client; endpoint := "calendarList.list"; params := ∅ |} ] |}.
Proof.
  intros Hs Hg.
  unfold ListCalendarsHandler.runTool, bind, lift, clientManager_getClient,
    parseAndTakeToken.
  rewrite Hs, Hg.
  destruct (listCalendars_run api client {| store := σ; apiLog := apiLog w |})
    as (c & -> & _).
  by destruct c.
Qed.

(** A run that fails before the client is there leaves the world alone. *)
Lemma runTool_no_client (schema : Schema) args w v e
    (rest : ref → gmap string value → M CallToolResult) :
  schema args = Normal v →
  getClient env (toString (prop v "accessToken")) (store w) = (Throw e, store w) →
  (parsed <~ lift (parseAndTakeToken schema args) ;;
   let '(accessToken, validArgs) := parsed in
   oauth2Client <~ clientManager_getClient env (toString accessToken) ;;
   rest oauth2Client validArgs) w = (Throw e, w).
Proof.
  intros Hs Hg. unfold bind, lift, clientManager_getClient, parseAndTakeToken.
  rewrite Hs, Hg. by destruct w.
Qed.

End HandlersMore.

(** X5: two tool calls that carry the same access token reach the API with
    the same client: when the manager answers the first call (delete event)
    with a reference, that call's API request and the API request of a
    following list-calendars call both carry this reference, and the second
    call leaves the manager's store as the first left it. *)
Theorem same_token_same_client_across_calls
    (schema1 schema2 : Schema) (env : Env) (api : Api)
    (args1 args2 v1 v2 : gmap string value) (w : World) (r : ref) (σ : Store) :
  schema1 args1 = Normal v1 →
  schema2 args2 = Normal v2 →
  toString (prop v2 "accessToken") = toString (prop v1 "accessToken") →
  getClient env (toString (prop v1 "accessToken")) (store w) = (Normal r, σ) →
  let w1 := (DeleteEventHandler.runTool schema1 env api args1 w).2 in
  let w2 := (ListCalendarsHandler.runTool schema2 env api args2 w1).2 in
  map auth (newCalls w w1) = [r] ∧
  map auth (newCalls w1 w2) = [r] ∧
  store w1 = σ ∧ store w2 = σ.
Proof.
  intros H1 H2 Htok Hg. simpl.
  rewrite (DeleteEventHandler_run env api schema1 args1 w v1 r σ H1 Hg). simpl.
  rewrite (ListCalendarsHandler_run env api schema2 args2 _ v2 r σ H2).
  2:{ simpl. rewrite Htok. by apply (getClient_again env _ (store w)). }
  simpl. by rewrite !newCalls_one.
Qed.

(** An API that accepts every call. *)
Definition acceptingApi : Api := λ _ _, Normal NoData.

Lemma same_token_same_client_across_calls_witness :
  map auth
      (newCalls
         (DeleteEventHandler.runTool acceptingSchema configuredEnv acceptingApi
            deleteArgs freshWorld).2
         (ListCalendarsHandler.runTool acceptingSchema configuredEnv acceptingApi
            deleteArgs
            (DeleteEventHandler.runTool acceptingSchema configuredEnv acceptingApi
               deleteArgs freshWorld).2).2)
    = [ClientRef 0].
Proof.
  apply (same_token_same_client_across_calls acceptingSchema acceptingSchema
           configuredEnv acceptingApi deleteArgs deleteArgs deleteArgs deleteArgs
           freshWorld (ClientRef 0)
           (getClient configuredEnv "ya29.token" newClientManager).2);
    vm_compute; reflexivity.
Defined.

(** X6: in a process where the client factory throws, a tool call whose
    token is neither cached nor a member name of [Object.prototype] ends,
    for each of the three handlers behind the server's handler, as the text
    result [Error: ] followed by the factory's message, with no API call
    made and the manager's store unchanged. *)
Theorem tool_call_in_unconfigured_process
    (schema : Schema) (env : Env) (api : Api)
    (args v : gmap string value) (w : World) (e : thrown) :
  schema args = Normal v →
  getProperty (clients (store w)) (toString (prop v "accessToken")) = None →
  initializeOAuth2Client env = Throw e →
  callToolRequestHandler (DeleteEventHandler.runTool schema env api) args w
    = (Normal (errorResult e), w) ∧
  callToolRequestHandler (ListColorsHandler.runTool schema env api) args w
    = (Normal (errorResult e), w) ∧
  callToolRequestHandler (ListCalendarsHandler.runTool schema env api) args w
    = (Normal (errorResult e), w).
Proof.
  intros Hs Hp Hi.
  pose proof (getClient_miss_throw env _ _ _ Hp Hi) as Hg.
  unfold callToolRequestHandler, tryCatch.
  unfold DeleteEventHandler.runTool, ListColorsHandler.runTool,
    ListCalendarsHandler.runTool.
  rewrite (runTool_no_client env schema args w v e
             (λ c a, _ <~ DeleteEventHandler.deleteEvent api c a ;; ret _) Hs Hg).
  rewrite (runTool_no_client env schema args w v e
             (λ c a, colors <~ ListColorsHandler.listColors api c ;; ret _) Hs Hg).
  rewrite (runTool_no_client env schema args w v e
             (λ c a, cals <~ ListCalendarsHandler.listCalendars api c ;; ret _) Hs Hg).
  done.
Qed.

Lemma tool_call_in_unconfigured_process_witness :
  callToolRequestHandler
    (DeleteEventHandler.runTool acceptingSchema
       {| GOOGLE_CLIENT_ID := Some "client-id"; GOOGLE_CLIENT_SECRET := None;
          GOOGLE_REDIRECT_URIS := None |} acceptingApi)
    deleteArgs freshWorld
  = (Normal {| content :=
                 [ {| type := "text";
                      text := "Error: GOOGLE_CLIENT_SECRET environment variable is required" |} ] |},
     freshWorld).
Proof.
  apply (tool_call_in_unconfigured_process acceptingSchema
           {| GOOGLE_CLIENT_ID := Some "client-id"; GOOGLE_CLIENT_SECRET := None;
              GOOGLE_REDIRECT_URIS := None |} acceptingApi deleteArgs deleteArgs
           freshWorld
           (ErrorObj "GOOGLE_CLIENT_SECRET environment variable is required"));
    vm_compute; reflexivity.
Defined.

(** X7: a delete-event run returns a result only when validation passed, the
    manager gave a client, and the one [events.delete] call that was made
    with the validated calendar and event ids returned; the result is then
    the text [Event deleted successfully]. *)
Theorem delete_event_success_means_deleted
    (schema : Schema) (env : Env) (api : Api)
    (args : gmap string value) (w : World) (result : CallToolResult) :
  (DeleteEventHandler.runTool schema env api args w).1 = Normal result →
  result = {| content := [ {| type := "text"; text := "Event deleted successfully" |} ] |} ∧
  ∃ v client resp,
    schema args = Normal v ∧
    (getClient env (toString (prop v "accessToken")) (store w)).1 = Normal client ∧
    api (apiLog w) (deleteRequest client v) = Normal resp ∧
    apiLog (DeleteEventHandler.runTool schema env api args w).2
      = apiLog w ++ [deleteRequest client v].
Proof.
  intros Hrun.
  destruct (schema args) as [v|e] eqn:Hs.
  2:{ unfold DeleteEventHandler.runTool, bind, lift, parseAndTakeToken in Hrun.
      by rewrite Hs in Hrun. }
  destruct (getClient env (toString (prop v "accessToken")) (store w))
    as [[client|e] σ] eqn:Hg.
  2:{ unfold DeleteEventHandler.runTool, bind, lift, clientManager_getClient,
        parseAndTakeToken in Hrun.
      by rewrite Hs, Hg in Hrun. }
  rewrite (DeleteEventHandler_run env api schema args w v client σ Hs Hg) in Hrun |- *.
  simpl in *. destruct (api (apiLog w) (deleteRequest client v)) as [resp|e] eqn:Ha;
    [|done].
  injection Hrun as <-. split; [done|]. exists v, client, resp. by rewrite Hg.
Qed.

Lemma delete_event_success_means_deleted_witness :
  ∃ v client resp,
    acceptingSchema deleteArgs = Normal v ∧
    (getClient configuredEnv (toString (prop v "accessToken")) (store freshWorld)).1
      = Normal client ∧
    acceptingApi (apiLog freshWorld) (deleteRequest client v) = Normal resp ∧
    apiLog (DeleteEventHandler.runTool acceptingSchema configuredEnv acceptingApi
              deleteArgs freshWorld).2
      = apiLog freshWorld ++ [deleteRequest client v].
Proof.
  apply (delete_event_success_means_deleted acceptingSchema configuredEnv acceptingApi
           deleteArgs freshWorld
           {| content := [ {| type := "text"; text := "Event deleted successfully" |} ] |}).
  vm_compute. reflexivity.
Defined.

(** ** The processing loop, further *)

Section MergeMore.

(** Whether a sub-response fails the success test. *)
Definition failed (r : SubResponse) : bool :=
  match successItems r with
  | Some _ => false
  | None => true
  end.

(** The number of items of a sub-response that passes it. *)
Definition itemCount (r : SubResponse) : nat :=
  match successItems r with
  | Some its => length its
  | None => 0
  end.

Lemma eventsFrom_length ids rs : ∀ index,
  length (eventsFrom ids index rs) = sum_list (map itemCount rs).
Proof.
  induction rs as [|r rest IH]; intros index; simpl; [done|].
  rewrite length_app, IH. f_equal. unfold eventsAt, itemCount.
  destruct (successItems r); [apply length_map|done].
Qed.

Lemma errorsFrom_length ids rs : ∀ index,
  length (errorsFrom ids index rs) = length (List.filter failed rs).
Proof.
  induction rs as [|r rest IH]; intros index; simpl; [done|].
  rewrite length_app, IH. unfold errorsAt, failed.
  by destruct (successItems r).
Qed.

Lemma eventsFrom_origin ids rs : ∀ index ev,
  ev ∈ eventsFrom ids index rs →
  ∃ i r its item,
    rs !! i = Some r ∧ successItems r = Some its ∧ item ∈ its ∧
    ev = withCalendarId (ids !! (index + i)) item.
Proof.
  induction rs as [|r rest IH]; intros index ev Hev; simpl in Hev.
  { by apply elem_of_nil in Hev. }
  apply elem_of_app in Hev as [Hev|Hev].
  - unfold eventsAt in Hev. destruct (successItems r) as [its|] eqn:Hs.
    2:{ by apply elem_of_nil in Hev. }
    apply list_elem_of_fmap in Hev as (item & -> & Hitem).
    exists 0, r, its, item. by rewrite Nat.add_0_r.
  - destruct (IH _ _ Hev) as (i & r0 & its & item & Hr & Hs & Hitem & ->).
    exists (S i), r0, its, item. repeat split; try done.
    by replace (index + S i) with (S index + i) by lia.
Qed.

Lemma errorsFrom_origin ids rs : ∀ index er,
  er ∈ errorsFrom ids index rs →
  ∃ i r,
    rs !! i = Some r ∧ successItems r = None ∧
    er = {| err_calendarId := ids !! (index + i); err_error := body r |}.
Proof.
  induction rs as [|r rest IH]; intros index er Her; simpl in Her.
  { by apply elem_of_nil in Her. }
  apply elem_of_app in Her as [Her|Her].
  - unfold errorsAt in Her. destruct (successItems r) as [its|] eqn:Hs.
    { by apply elem_of_nil in Her. }
    apply list_elem_of_singleton in Her as ->.
    exists 0, r. by rewrite Nat.add_0_r.
  - destruct (IH _ _ Her) as (i & r0 & Hr & Hs & ->).
    exists (S i), r0. repeat split; try done.
    by replace (index + S i) with (S index + i) by lia.
Qed.

End MergeMore.

(** X8: whatever the lengths of the two inputs, every sub-response is
    counted once: the error list has one entry per sub-response that fails
    the success test, the event list has as many events as the passing
    sub-responses have items, and so a sub-response contributes to the error
    list or to the event list, never to both. *)
Theorem processBatchResponses_counts
    (calendarIds : list string) (subResponses : list SubResponse) :
  length (errors (processBatchResponses calendarIds subResponses))
    = length (List.filter failed subResponses) ∧
  length (allEvents (processBatchResponses calendarIds subResponses))
    = sum_list (map itemCount subResponses) ∧
  length (errors (processBatchResponses calendarIds subResponses))
    + length (List.filter (λ r, negb (failed r)) subResponses)
    = length subResponses.
Proof.
  unfold processBatchResponses. rewrite forEachFrom_processResponse. simpl.
  rewrite errorsFrom_length, eventsFrom_length. repeat split.
  induction subResponses as [|r rest IH]; simpl; [done|].
  destruct (failed r); simpl; lia.
Qed.

(** X9: whatever the lengths of the two inputs, every event of the result is
    an item of a passing sub-response, changed only in its [calendarId],
    which is the calendar id at that sub-response's position, or [undefined]
    when [calendarIds] is too short; and every error entry is the body of a
    failing sub-response with the calendar id of its position. *)
Theorem processBatchResponses_origin
    (calendarIds : list string) (subResponses : list SubResponse) :
  (∀ ev, ev ∈ allEvents (processBatchResponses calendarIds subResponses) →
     ∃ i r its item,
       subResponses !! i = Some r ∧ statusCode r = 200%Z ∧
       items (body r) = Some its ∧ item ∈ its ∧
       calendarId ev = calendarIds !! i ∧
       id ev = id item ∧ summary ev = summary item ∧ start ev = start item ∧
       end_ ev = end_ item ∧ location ev = location item) ∧
  (∀ er, er ∈ errors (processBatchResponses calendarIds subResponses) →
     ∃ i r,
       subResponses !! i = Some r ∧ successItems r = None ∧
       err_calendarId er = calendarIds !! i ∧ err_error er = body r).
Proof.
  unfold processBatchResponses. rewrite forEachFrom_processResponse. simpl. split.
  - intros ev Hev.
    destruct (eventsFrom_origin _ _ _ _ Hev) as (i & r & its & item & Hr & Hs & Hi & ->).
    exists i, r, its, item. unfold successItems in Hs.
    destruct (Z.eqb_spec (statusCode r) 200); [|done]. by repeat split.
  - intros er Her.
    destruct (errorsFrom_origin _ _ _ _ Her) as (i & r & Hr & Hs & ->).
    by exists i, r.
Qed.

(** ** The start-time sort, further *)

Section SortMore.

Context {A : Type} (compareFn : A → A → comparison).

(** Inserting before a list whose head is not smaller puts the element in
    front. *)
Lemma insertSorted_front x l :
  StronglySorted (notGreater compareFn) (x :: l) → insertSorted compareFn x l = x :: l.
Proof.
  intros Hs. destruct l as [|y l]; [done|]. simpl.
  apply StronglySorted_inv in Hs as [_ Hx]. apply Forall_cons in Hx as [Hxy _].
  unfold notGreater in Hxy. by destruct (compareFn x y).
Qed.

Lemma sort_sorted l :
  StronglySorted (notGreater compareFn) l → sort compareFn l = l.
Proof.
  induction l as [|x l IH]; intros Hs; [done|]. simpl.
  rewrite IH by (by apply StronglySorted_inv in Hs as [? _]).
  by apply insertSorted_front.
Qed.

End SortMore.

(** X10: under a consistent comparator the sort leaves a list that is
    already ordered by start key exactly as it is, and sorting a second time
    changes nothing. *)
Theorem sortEvents_idempotent
    (localeCompare : string → string → comparison) (events : list ExtendedEvent) :
  (∀ a b, localeCompare a b = CompOpp (localeCompare b a)) →
  (∀ a b c, localeCompare a b ≠ Gt → localeCompare b c ≠ Gt → localeCompare a c ≠ Gt) →
  (StronglySorted (λ a b, localeCompare (startKey a) (startKey b) ≠ Gt) events →
   sortEvents localeCompare events = events) ∧
  sortEvents localeCompare (sortEvents localeCompare events)
    = sortEvents localeCompare events.
Proof.
  intros Hanti Htrans. split.
  - apply (sort_sorted (compareStart localeCompare)).
  - apply (sort_sorted (compareStart localeCompare)).
    apply sort_StronglySorted.
    + intros a b. apply Hanti.
    + intros a b c. apply Htrans.
Qed.

Lemma sortEvents_idempotent_witness :
  sortEvents lexCompare (sortEvents lexCompare [timedEvent; allDayEvent])
    = sortEvents lexCompare [timedEvent; allDayEvent].
Proof.
  apply (sortEvents_idempotent lexCompare [timedEvent; allDayEvent]
           lexCompare_antisym lexCompare_trans).
Defined.

(** An event with no start at all. *)
Definition unscheduledEvent : ExtendedEvent :=
  {| id := "unscheduled"; summary := "No start"; start := None; end_ := None;
     location := None; calendarId := None |}.

(** ** Request paths, further *)

Section EncodingFacts.

(** The characters of a string, and how often one occurs. *)
Definition chars (s : string) : list ascii := list_ascii_of_string s.

Definition countChar (c : ascii) (s : string) : nat :=
  length (List.filter (Ascii.eqb c) (chars s)).

Lemma chars_app a b : chars (a +:+ b) = chars a ++ chars b.
Proof.
  unfold chars. induction a as [|x a IH]; [done|].
  unfold String.app in *. simpl. by rewrite IH.
Qed.

Lemma countChar_app c a b : countChar c (a +:+ b) = countChar c a + countChar c b.
Proof. unfold countChar. by rewrite chars_app, List.filter_app, length_app. Qed.

(** The value of a hexadecimal digit, and the reading of [%XX] escapes:
    the inverse the proofs below decode with. *)
Definition unhex (c : ascii) : N :=
  let n := N_of_ascii c in if (n <? 58)%N then (n - 48)%N else (n - 55)%N.

Fixpoint percentDecode (s : string) : string :=
  match s with
  | "" => ""
  | String c r =>
    if Ascii.eqb c "%" then
      match r with
      | String h (String l r') =>
        String (ascii_of_N (16 * unhex h + unhex l)) (percentDecode r')
      | _ => String c (percentDecode r)
      end
    else String c (percentDecode r)
  end.

Lemma percentDecode_encodeURIComponentChar c rest :
  percentDecode (encodeURIComponentChar c +:+ rest) = String c (percentDecode rest).
Proof. destruct c as [[] [] [] [] [] [] [] []]; reflexivity. Qed.

Lemma percentDecode_encodeURIComponent_app s rest :
  percentDecode (encodeURIComponent s +:+ rest) = s +:+ percentDecode rest.
Proof.
  induction s as [|c s IH]; [done|]. simpl.
  rewrite append_assoc, percentDecode_encodeURIComponentChar, IH. done.
Qed.

(** The characters [encodeURIComponent] lets through or produces. *)
Definition uriSafe (c : ascii) : bool := isAlnum c || memChar c "-_.!~*'()%".

(** The characters a query value is serialized to. *)
Definition formSafe (c : ascii) : bool := isAlnum c || memChar c "*-._+%".

Lemma encodeURIComponentChar_safe c :
  forallb uriSafe (chars (encodeURIComponentChar c)) = true.
Proof. destruct c as [[] [] [] [] [] [] [] []]; reflexivity. Qed.

Lemma formEncodeChar_safe c :
  forallb formSafe (chars (formEncodeChar c)) = true.
Proof. destruct c as [[] [] [] [] [] [] [] []]; reflexivity. Qed.

Lemma encodeURIComponent_safe s :
  forallb uriSafe (chars (encodeURIComponent s)) = true.
Proof.
  induction s as [|c s IH]; [done|]. simpl.
  by rewrite chars_app, forallb_app, encodeURIComponentChar_safe, IH.
Qed.

Lemma formEncode_safe s : forallb formSafe (chars (formEncode s)) = true.
Proof.
  induction s as [|c s IH]; [done|]. simpl.
  by rewrite chars_app, forallb_app, formEncodeChar_safe, IH.
Qed.

(** A character outside a set that holds every character of a string does
    not occur in the string. *)
Lemma countChar_outside (safe : ascii → bool) c s :
  safe c = false → forallb safe (chars s) = true → countChar c s = 0.
Proof.
  intros Hc. unfold countChar. induction (chars s) as [|x l IH]; [done|].
  simpl. intros [Hx Hl]%andb_prop.
  destruct (Ascii.eqb_spec c x) as [->|_]; [congruence|by apply IH].
Qed.

End EncodingFacts.

(** Appending the same string on the right is injective. *)
Lemma string_length_app (a b : string) :
  String.length (a +:+ b) = String.length a + String.length b.
Proof.
  induction a as [|x a IH]; [done|]. unfold String.app in *. simpl. by rewrite IH.
Qed.

Lemma string_app_inj_r (a b t : string) : a +:+ t = b +:+ t → a = b.
Proof.
  intros H.
  assert (String.length a = String.length b) as Hlen.
  { apply (f_equal String.length) in H. rewrite !string_length_app in H. lia. }
  revert b H Hlen. induction a as [|x a IH]; intros [|y b] H Hlen; try done.
  unfold String.app in *. simpl in *. injection H as -> H. f_equal.
  apply IH; [done|lia].
Qed.

Lemma string_app_nil_r (a : string) : a +:+ "" = a.
Proof.
  induction a as [|x a IH]; [done|]. unfold String.app in *. simpl. by rewrite IH.
Qed.

(** X12: the path encoding of a calendar id loses nothing: decoding the
    [%XX] escapes of [encodeURIComponent(id)] gives [id] back, the encoded
    id consists of letters, digits and [- _ . ! ~ * ' ( ) %] only, and two
    different calendar ids never get the same request path. *)
Theorem requestPath_injective (options : Options) :
  (∀ s, percentDecode (encodeURIComponent s) = s) ∧
  (∀ s, forallb uriSafe (chars (encodeURIComponent s)) = true) ∧
  (∀ a b, requestPath options a = requestPath options b → a = b).
Proof.
  assert (∀ s, percentDecode (encodeURIComponent s) = s) as Hround.
  { intros s. pose proof (percentDecode_encodeURIComponent_app s "") as H.
    by rewrite !string_app_nil_r in H. }
  split; [done|]. split; [apply encodeURIComponent_safe|].
  intros a b Hpath. unfold requestPath in Hpath.
  apply (inj (String.app "/calendar/v3/calendars/")) in Hpath.
  apply string_app_inj_r in Hpath.
  by rewrite <- (Hround a), <- (Hround b), Hpath.
Qed.

Section RequestLineFacts.

Variable options : Options.

(** The characters that would change how a request path or a part is read:
    none of them passes either encoder. *)
Lemma countChar_encodeURIComponent c s :
  uriSafe c = false → countChar c (encodeURIComponent s) = 0.
Proof. intros Hc. apply (countChar_outside uriSafe); [done|apply encodeURIComponent_safe]. Qed.

Lemma countChar_formEncode c s :
  formSafe c = false → countChar c (formEncode s) = 0.
Proof. intros Hc. apply (countChar_outside formSafe); [done|apply formEncode_safe]. Qed.

(** Occurrences of a character that neither encoder passes, in a request
    path: those of the fixed text around the encoded values. *)
Lemma countChar_requestPath c cid :
  uriSafe c = false → formSafe c = false →
  countChar c (requestPath options cid) =
    countChar c "/calendar/v3/calendars/" + countChar c "/events?" +
    countChar c "singleEvents=true&orderBy=startTime&timeMin=" +
    countChar c "&timeMax=".
Proof.
  intros Hu Hf. unfold requestPath.
  rewrite (URLSearchParams_toString_searchParams options). unfold expectedQuery.
  rewrite !countChar_app, countChar_encodeURIComponent, !countChar_formEncode by done.
  lia.
Qed.

(** Decimal numerals hold digits only. *)
Lemma pretty_N_go_digits x : ∀ s,
  forallb isDigit (chars s) = true → forallb isDigit (chars (pretty_N_go x s)) = true.
Proof.
  induction (N.lt_wf_0 x) as [x _ IH]. intros s Hs.
  destruct (decide (0 < x)%N) as [Hx|Hx].
  - rewrite pretty_N_go_step by done. apply IH.
    + by apply N.div_lt.
    + simpl. rewrite Hs, andb_true_r.
      assert (x `mod` 10 < 10)%N as Hm by (by apply N.mod_lt).
      destruct (x `mod` 10)%N as [|p]; [done|].
      do 4 (destruct p as [p|p|]; try done).
  - replace x with 0%N by lia. by rewrite pretty_N_go_0.
Qed.

Lemma pretty_nat_digits (n : nat) : forallb isDigit (chars (pretty n)) = true.
Proof.
  unfold pretty, pretty_nat, pretty, pretty_N.
  case_decide; [done|]. by apply pretty_N_go_digits.
Qed.

Lemma countChar_pretty c (n : nat) : isDigit c = false → countChar c (pretty n) = 0.
Proof. intros Hc. apply (countChar_outside isDigit); [done|apply pretty_nat_digits]. Qed.

End RequestLineFacts.


(** X14: when the boundary holds no line break, the part of a request built
    from any calendar id and time bounds, at any position, has exactly four
    line breaks (its five lines), so the calendar id cannot add a header or
    a part. *)
Theorem createPart_five_lines
    (bdry : string) (options : Options) (index : nat) (calendarId : string) :
  countChar "013" bdry = 0 → countChar "010" bdry = 0 →
  countChar "013"
    (createPart bdry index {| method := "GET"; path := requestPath options calendarId |})
    = 4 ∧
  countChar "010"
    (createPart bdry index {| method := "GET"; path := requestPath options calendarId |})
    = 4.
Proof.
  intros Hcr Hlf. rewrite createPart_request. unfold expectedPart.
  split; rewrite !countChar_app.
  - rewrite Hcr, countChar_pretty, countChar_encodeURIComponent by done.
    rewrite <- (URLSearchParams_toString_searchParams options).
    assert (countChar "013" (URLSearchParams_toString (searchParams options)) = 0) as ->.
    { rewrite (URLSearchParams_toString_searchParams options). unfold expectedQuery.
      by rewrite !countChar_app, !countChar_formEncode. }
    reflexivity.
  - rewrite Hlf, countChar_pretty, countChar_encodeURIComponent by done.
    rewrite <- (URLSearchParams_toString_searchParams options).
    assert (countChar "010" (URLSearchParams_toString (searchParams options)) = 0) as ->.
    { rewrite (URLSearchParams_toString_searchParams options). unfold expectedQuery.
      by rewrite !countChar_app, !countChar_formEncode. }
    reflexivity.
Qed.

Lemma createPart_five_lines_witness :
  countChar "010"
    (createPart "batch_boundary_test" 0
       {| method := "GET";
          path := requestPath scenarioOptions
                    ("work@example.com" +:+ String "013" (String "010" "X-Injected: 1")) |})
    = 4.
Proof.
  apply (createPart_five_lines "batch_boundary_test" scenarioOptions 0
           ("work@example.com" +:+ String "013" (String "010" "X-Injected: 1")));
    reflexivity.
Defined.

(** ** Grouping events by calendar

    The grouping that the formatting test of [BatchListEvents.test.ts]
    carries inline, and the order in which its groups are listed. *)

Module Grouping.

(** The accumulator object of the [reduce]: its own properties, in the order
    they were created. *)
Definition Groups : Type := list (string * list ExtendedEvent).

(** [(event as any).calendarId || 'unknown'] *)
Definition groupKey (event : ExtendedEvent) : string :=
  if truthy (calendarId event) then default "" (calendarId event) else "unknown".

Fixpoint ownGroup (acc : Groups) (k : string) : option (list ExtendedEvent) :=
  match acc with
  | [] => None
  | (k', es) :: rest => if String.eqb k k' then Some es else ownGroup rest k
  end.

(** [acc[calId].push(event)] on an own property. *)
Fixpoint pushTo (k : string) (event : ExtendedEvent) (acc : Groups) : Groups :=
  match acc with
  | [] => []
  | (k', es) :: rest =>
    if String.eqb k k' then (k', es ++ [event]) :: rest
    else (k', es) :: pushTo k event rest
  end.

(** The callback of the [reduce]. The accumulator starts as [{}], so a read
    [acc[calId]] that finds no own property finds the member that
    [Object.prototype] has under that name, if any; that member is truthy
    and has no [push], and the call throws. *)
Definition groupStep (acc : Groups) (event : ExtendedEvent) : completion Groups :=
  let calId := groupKey event in
  match ownGroup acc calId with
  | Some _ => Normal (pushTo calId event acc)
  | None =>
    if bool_decide (calId ∈ objectPrototypeKeys)
    then Throw (ErrorObj "acc[calId].push is not a function")
    else Normal (acc ++ [ (calId, [event]) ])
  end.

(** [events.reduce(callback, acc)] *)
Fixpoint reduceGroups (acc : Groups) (events : list ExtendedEvent) : completion Groups :=
  match events with
  | [] => Normal acc
  | event :: rest =>
    match groupStep acc event with
    | Normal acc' => reduceGroups acc' rest
    | Throw e => Throw e
    end
  end.

Definition groupEvents (events : list ExtendedEvent) : completion Groups :=
  reduceGroups [] events.

(** An array index: a canonical decimal numeral below [2^32 - 1]. *)
Fixpoint digitsValue (acc : N) (cs : list ascii) : N :=
  match cs with
  | [] => acc
  | c :: rest => digitsValue (10 * acc + (N_of_ascii c - 48)) rest
  end.

Definition arrayIndex (k : string) : option N :=
  let cs := list_ascii_of_string k in
  match cs with
  | [] => None
  | c :: rest =>
    if forallb isDigit cs && (negb (Ascii.eqb c "0") || bool_decide (rest = []))
       && (length cs <=? 10)%nat && (digitsValue 0 cs <? 4294967295)%N
    then Some (digitsValue 0 cs) else None
  end.

Definition isIndexKey (entry : string * list ExtendedEvent) : bool :=
  match arrayIndex entry.1 with
  | Some _ => true
  | None => false
  end.

Definition compareIndex (a b : string * list ExtendedEvent) : comparison :=
  N.compare (default 0%N (arrayIndex a.1)) (default 0%N (arrayIndex b.1)).

(** [Object.entries(grouped)]: the array-index keys in ascending order, then
    the other keys in creation order. *)
Definition entries (g : Groups) : Groups :=
  sort compareIndex (List.filter isIndexKey g) ++
  List.filter (λ entry, negb (isIndexKey entry)) g.

End Grouping.

Import Grouping.

Section GroupingFacts.

(** The events of a list that belong under key [k]. *)
Definition eventsOf (k : string) (events : list ExtendedEvent) : list ExtendedEvent :=
  List.filter (λ e, String.eqb (groupKey e) k) events.

Lemma ownGroup_pushTo_same k e acc es :
  ownGroup acc k = Some es → ownGroup (pushTo k e acc) k = Some (es ++ [e]).
Proof.
  induction acc as [|[k' es'] acc IH]; simpl; [done|].
  destruct (String.eqb_spec k k') as [->|Hne]; simpl.
  - rewrite String.eqb_refl. by intros [= ->].
  - destruct (String.eqb_spec k k'); [done|]. apply IH.
Qed.

Lemma ownGroup_pushTo_other k k0 e acc :
  k0 ≠ k → ownGroup (pushTo k e acc) k0 = ownGroup acc k0.
Proof.
  intros Hne. induction acc as [|[k' es'] acc IH]; simpl; [done|].
  destruct (String.eqb_spec k k') as [->|Hk]; simpl.
  - by destruct (String.eqb_spec k0 k').
  - destruct (String.eqb_spec k0 k'); [done|apply IH].
Qed.

Lemma ownGroup_app_new acc k es k0 :
  ownGroup acc k = None →
  ownGroup (acc ++ [(k, es)]) k0 =
    if String.eqb k0 k then Some es else ownGroup acc k0.
Proof.
  induction acc as [|[k' es'] acc IH]; simpl; [done|].
  destruct (String.eqb_spec k k') as [->|Hk]; [done|]. intros Hnone.
  destruct (String.eqb_spec k0 k') as [->|Hk0].
  - by destruct (String.eqb_spec k' k).
  - by apply IH.
Qed.

Lemma map_fst_pushTo k e acc : map fst (pushTo k e acc) = map fst acc.
Proof.
  induction acc as [|[k' es'] acc IH]; simpl; [done|].
  destruct (String.eqb k k'); simpl; [done|]. by rewrite IH.
Qed.

Lemma ownGroup_None_keys acc k : ownGroup acc k = None ↔ k ∉ map fst acc.
Proof.
  induction acc as [|[k' es'] acc IH]; simpl.
  - split; [intros _; apply not_elem_of_nil|done].
  - rewrite not_elem_of_cons. destruct (String.eqb_spec k k') as [->|Hne].
    + split; [done|by intros [? _]].
    + rewrite IH. split; [by intros ?; split|by intros [_ ?]].
Qed.

Lemma ownGroup_elem_of acc k es :
  NoDup (map fst acc) → ((k, es) ∈ acc ↔ ownGroup acc k = Some es).
Proof.
  induction acc as [|[k' es'] acc IH]; simpl.
  - intros _. split; [by intros ?%elem_of_nil|done].
  - intros [Hk' Hnd]%NoDup_cons. rewrite elem_of_cons.
    destruct (String.eqb_spec k k') as [->|Hne].
    + split.
      * intros [[= ->]|Hin]; [done|].
        destruct Hk'. apply list_elem_of_fmap. by exists (k', es).
      * intros [= ->]. by left.
    + rewrite <- (IH Hnd). split; [intros [[= ? ?]|?]; done|by right].
Qed.

(** One step of the grouping: what it keeps, when it succeeds. *)
Lemma groupStep_spec acc e acc' :
  NoDup (map fst acc) →
  groupStep acc e = Normal acc' →
  NoDup (map fst acc') ∧
  Permutation (concat (map snd acc')) (concat (map snd acc) ++ [e]) ∧
  ∀ k, ownGroup acc' k =
         if String.eqb (groupKey e) k
         then Some (default [] (ownGroup acc k) ++ [e])
         else ownGroup acc k.
Proof.
  intros Hnd. unfold groupStep.
  destruct (ownGroup acc (groupKey e)) as [es|] eqn:Hown.
  - intros [= <-]. split; [by rewrite map_fst_pushTo|]. split.
    + clear Hnd. revert es Hown.
      induction acc as [|[k' es'] acc IH]; intros es Hown; simpl in *; [done|].
      destruct (String.eqb_spec (groupKey e) k') as [Heq|Hne]; simpl.
      * rewrite <- !app_assoc. apply Permutation_app_head.
        apply Permutation_app_comm.
      * rewrite <- app_assoc. apply Permutation_app_head. by apply (IH es).
    + intros k. destruct (String.eqb_spec (groupKey e) k) as [<-|Hne].
      * rewrite Hown. by apply ownGroup_pushTo_same.
      * by apply ownGroup_pushTo_other.
  - case_bool_decide; [done|]. intros [= <-]. split; [|split].
    + rewrite map_app. simpl. apply NoDup_app. split; [done|]. split.
      * intros k Hk ->%list_elem_of_singleton. by apply ownGroup_None_keys in Hown.
      * apply NoDup_singleton.
    + rewrite map_app, concat_app. simpl. done.
    + intros k. rewrite (ownGroup_app_new _ _ _ _ Hown).
      destruct (String.eqb_spec k (groupKey e)) as [->|Hne].
      * by rewrite String.eqb_refl, Hown.
      * by destruct (String.eqb_spec (groupKey e) k).
Qed.

Lemma reduceGroups_spec events : ∀ acc g,
  NoDup (map fst acc) →
  reduceGroups acc events = Normal g →
  NoDup (map fst g) ∧
  Permutation (concat (map snd g)) (concat (map snd acc) ++ events) ∧
  ∀ k, ownGroup g k =
         match ownGroup acc k, eventsOf k events with
         | None, [] => None
         | o, es => Some (default [] o ++ es)
         end.
Proof.
  induction events as [|e rest IH]; intros acc g Hnd Hrun; simpl in Hrun.
  - injection Hrun as <-. split; [done|]. split; [by rewrite app_nil_r|].
    intros k. simpl. destruct (ownGroup acc k); simpl; by rewrite ?app_nil_r.
  - destruct (groupStep acc e) as [acc'|t] eqn:Hstep; [|done].
    destruct (groupStep_spec _ _ _ Hnd Hstep) as (Hnd' & Hperm' & Hown').
    destruct (IH _ _ Hnd' Hrun) as (Hndg & Hpermg & Howng).
    split; [done|]. split.
    + rewrite Hpermg, Hperm'. by rewrite <- app_assoc.
    + intros k. rewrite Howng, Hown'. unfold eventsOf. simpl.
      destruct (String.eqb_spec (groupKey e) k) as [Heq|Hne].
      * destruct (ownGroup acc k); simpl; rewrite <- ?app_assoc; simpl;
          by destruct (List.filter _ rest).
      * done.
Qed.

Lemma filter_complement_Permutation {B} (f : B → bool) (l : list B) :
  Permutation (List.filter f l ++ List.filter (λ x, negb (f x)) l) l.
Proof.
  induction l as [|x l IH]; simpl; [done|].
  destruct (f x); simpl; [by constructor|].
  rewrite <- Permutation_middle. by constructor.
Qed.

Lemma entries_Permutation g : Permutation (entries g) g.
Proof.
  unfold entries. rewrite sort_Permutation. apply filter_complement_Permutation.
Qed.

(** A reduce throws exactly when it meets a key it cannot create. *)
Lemma reduceGroups_Throw events : ∀ acc,
  (∀ k, k ∈ map fst acc → k ∉ objectPrototypeKeys) →
  (∃ e, reduceGroups acc events = Throw e) ↔
  ∃ ev, ev ∈ events ∧ groupKey ev ∈ objectPrototypeKeys.
Proof.
  induction events as [|e rest IH]; intros acc Hacc; simpl.
  { split; [by intros [? ?]|by intros (? & ?%elem_of_nil & _)]. }
  unfold groupStep.
  destruct (ownGroup acc (groupKey e)) as [es|] eqn:Hown.
  - assert (groupKey e ∉ objectPrototypeKeys) as Hk.
    { apply Hacc. destruct (decide (groupKey e ∈ map fst acc)) as [|Hn]; [done|].
      apply ownGroup_None_keys in Hn. congruence. }
    rewrite IH by (by rewrite map_fst_pushTo). split.
    + intros (ev & Hev & Hp). exists ev. split; [by right|done].
    + intros (ev & [->|Hev]%elem_of_cons & Hp); [done|eauto].
  - case_bool_decide as Hk.
    + split; [|eauto]. intros _. exists e. split; [by left|done].
    + rewrite IH.
      * split.
        -- intros (ev & Hev & Hp). exists ev. split; [by right|done].
        -- intros (ev & [->|Hev]%elem_of_cons & Hp); [done|eauto].
      * intros k. rewrite map_app. simpl.
        intros [Hin| ->%list_elem_of_singleton]%elem_of_app; [by apply Hacc|done].
Qed.

End GroupingFacts.

(** X15: when the grouping returns, no event is lost or duplicated: the
    groups listed by [Object.entries] hold, together, exactly the events
    given; each group holds the events whose calendar id ([unknown] for a
    missing or empty one) is its key, in their original order, and is never
    empty; and no key is listed twice. *)
Theorem groupEvents_partition (events : list ExtendedEvent) (g : Groups) :
  groupEvents events = Normal g →
  Permutation (concat (map snd (entries g))) events ∧
  NoDup (map fst (entries g)) ∧
  (∀ k es, (k, es) ∈ entries g ↔ es = eventsOf k events ∧ es ≠ []).
Proof.
  intros Hrun. unfold groupEvents in Hrun.
  destruct (reduceGroups_spec events [] g (NoDup_nil_2) Hrun) as (Hnd & Hperm & Hown).
  pose proof (entries_Permutation g) as He. split; [|split].
  - by rewrite He, Hperm.
  - by rewrite He.
  - intros k es. rewrite He, (ownGroup_elem_of _ _ _ Hnd), Hown. simpl.
    destruct (eventsOf k events) as [|e es'] eqn:Hes.
    + split; [done|by intros [-> ?]].
    + split; [by intros [= <-]|by intros [-> _]].
Qed.

(** The two events of the grouping test, tagged as the test tags them. *)
Definition workEvent : ExtendedEvent :=
  {| id := "work1"; summary := "Work Meeting";
     start := Some {| date := None; dateTime := Some "2024-01-15T09:00:00Z" |};
     end_ := Some {| date := None; dateTime := Some "2024-01-15T10:00:00Z" |};
     location := None; calendarId := Some "work@example.com" |}.

Definition personalEvent : ExtendedEvent :=
  {| id := "personal1"; summary := "Gym";
     start := Some {| date := None; dateTime := Some "2024-01-15T18:00:00Z" |};
     end_ := Some {| date := None; dateTime := Some "2024-01-15T19:00:00Z" |};
     location := None; calendarId := Some "personal@example.com" |}.

Lemma groupEvents_partition_witness :
  groupEvents [workEvent; personalEvent; unscheduledEvent]
    = Normal [ ("work@example.com", [workEvent]);
               ("personal@example.com", [personalEvent]);
               ("unknown", [unscheduledEvent]) ] ∧
  NoDup (map fst (entries [ ("work@example.com", [workEvent]);
                            ("personal@example.com", [personalEvent]);
                            ("unknown", [unscheduledEvent]) ])).
Proof.
  split; [reflexivity|].
  apply (groupEvents_partition [workEvent; personalEvent; unscheduledEvent]).
  reflexivity.
Defined.

(** X16: the grouping throws exactly when some event's calendar id is the
    name of a member of [Object.prototype] (the accumulator is a plain
    object, and the inherited member has no [push]); otherwise it returns
    the groups. *)
Theorem groupEvents_throws_iff (events : list ExtendedEvent) :
  ((∃ e, groupEvents events = Throw e) ↔
   ∃ ev, ev ∈ events ∧ groupKey ev ∈ objectPrototypeKeys) ∧
  ((∃ g, groupEvents events = Normal g) ↔
   ∀ ev, ev ∈ events → groupKey ev ∉ objectPrototypeKeys).
Proof.
  assert ((∃ e, groupEvents events = Throw e) ↔
          ∃ ev, ev ∈ events ∧ groupKey ev ∈ objectPrototypeKeys) as Hthrow.
  { apply reduceGroups_Throw. by intros k ?%elem_of_nil. }
  split; [done|]. split.
  - intros [g Hg] ev Hev Hk.
    destruct (proj2 Hthrow) as [e He]; [eauto|]. congruence.
  - intros Hall. destruct (groupEvents events) as [g|e] eqn:Hrun; [eauto|].
    destruct (proj1 Hthrow) as (ev & Hev & Hk); [eauto|]. by destruct (Hall ev Hev).
Qed.

(** ** The calendar and color lists *)

Section ListFormatFacts.

Definition LF : ascii := "010".

Lemma countChar_cons c x s :
  countChar c (String x s) = (if Ascii.eqb c x then 1 else 0) + countChar c s.
Proof. unfold countChar, chars. simpl. by destruct (Ascii.eqb c x). Qed.

(** Splitting at a separator that does not occur gives the string itself;
    splitting a join over pieces without the separator gives the pieces. *)
Lemma split_without sep x : countChar sep x = 0 → split sep x = [x].
Proof.
  induction x as [|c x IH]; [done|]. rewrite countChar_cons. simpl.
  rewrite (Ascii.eqb_sym sep c). destruct (Ascii.eqb c sep); [done|]. simpl.
  intros Hx. by rewrite (IH Hx).
Qed.

Lemma split_app_sep sep x r :
  countChar sep x = 0 → split sep (x +:+ String sep r) = x :: split sep r.
Proof.
  induction x as [|c x IH]; simpl.
  - intros _. unfold String.app. simpl. by rewrite Ascii.eqb_refl.
  - rewrite countChar_cons. unfold String.app in *. simpl.
    rewrite (Ascii.eqb_sym sep c). destruct (Ascii.eqb c sep); [done|]. simpl.
    intros Hx. by rewrite (IH Hx).
Qed.

Lemma split_join sep (l : list string) :
  l ≠ [] → Forall (λ x, countChar sep x = 0) l →
  split sep (join (String sep "") l) = l.
Proof.
  induction l as [|x l IH]; [done|]. intros _ [Hx Hl]%Forall_cons.
  destruct l as [|y l]; simpl.
  - by apply split_without.
  - change (String sep "" +:+ ?r) with (String sep r).
    rewrite (split_app_sep sep x _ Hx). f_equal. by apply IH.
Qed.

Lemma orElse_nonempty o d : d ≠ "" → ListCalendarsHandler.orElse o d ≠ "".
Proof.
  intros Hd. unfold ListCalendarsHandler.orElse. destruct o as [s|]; simpl; [|done].
  by destruct (String.eqb_spec s "").
Qed.

Lemma countChar_orElse c o d :
  countChar c (default "" o) = 0 → countChar c d = 0 →
  countChar c (ListCalendarsHandler.orElse o d) = 0.
Proof.
  intros Ho Hd. unfold ListCalendarsHandler.orElse.
  destruct o as [s|]; simpl in *; [|done].
  by destruct (String.eqb s "").
Qed.

(** The line of one calendar and of one color. *)
Definition calendarLine (cal : CalendarListEntry) : string :=
  ListCalendarsHandler.orElse (cal_summary cal) "Untitled" +:+ " (" +:+
  ListCalendarsHandler.orElse (cal_id cal) "no-id" +:+ ")".

Definition colorLine (e : string * ColorInfo) : string :=
  "Color ID: " +:+ e.1 +:+ " - " +:+ background e.2 +:+
  " (background) / " +:+ foreground e.2 +:+ " (foreground)".

(** The lines of a text: the empty text has none, any other text has the
    pieces between its line feeds. *)
Definition linesOf (text : string) : list string :=
  match text with
  | "" => []
  | _ => split LF text
  end.

(** A join of pieces that are not empty is empty only for no piece. *)
Lemma join_nonempty sep (l : list string) :
  Forall (λ x, x ≠ "") l → l ≠ [] → join sep l ≠ "".
Proof.
  intros Hl Hne. destruct l as [|x l]; [done|].
  apply Forall_cons in Hl as [Hx _]. simpl.
  destruct l as [|y l]; [done|].
  destruct x as [|c x]; [done|]. unfold String.app. simpl. discriminate.
Qed.

Lemma linesOf_join (l : list string) :
  Forall (λ x, x ≠ "") l → Forall (λ x, countChar LF x = 0) l →
  linesOf (join (String LF "") l) = l.
Proof.
  intros Hne Hlf. destruct l as [|x l]; [done|].
  pose proof (join_nonempty (String LF "") (x :: l) Hne) as Hj.
  unfold linesOf. destruct (join (String LF "") (x :: l)) eqn:Hjoin.
  - by destruct Hj.
  - rewrite <- Hjoin. by apply split_join.
Qed.

Lemma calendarLine_nonempty cal : calendarLine cal ≠ "".
Proof.
  unfold calendarLine.
  pose proof (orElse_nonempty (cal_summary cal) "Untitled") as H.
  destruct (ListCalendarsHandler.orElse (cal_summary cal) "Untitled"); [by destruct H|].
  unfold String.app. simpl. discriminate.
Qed.

Lemma colorLine_nonempty e : colorLine e ≠ "".
Proof. unfold colorLine, String.app. simpl. discriminate. Qed.

End ListFormatFacts.



(** The list of an account without calendars: the empty text, no line. *)
Example formatCalendarList_empty :
  ListCalendarsHandler.formatCalendarList [] = "" ∧
  linesOf (ListCalendarsHandler.formatCalendarList []) = [] ∧
  split LF (ListCalendarsHandler.formatCalendarList []) = [""].
Proof. repeat split. Qed.


